(** * refactor_icons.py: the bulk-import rewriter of gsoultan/Hermod

    A shallow embedding of [src/refactor_icons.py].  Python strings are
    sequences of Unicode code points; the regular expression of line 9 is
    kept as a term and run by a greedy backtracking matcher, the way
    Python's [re] module runs it; the file system is a finite map from
    paths to texts; exceptions are explicit. *)

From Stdlib Require Import NArith Ascii String DecimalString Sorted.
From stdpp Require Import base option list gmap.

Local Open Scope N_scope.
Local Open Scope nat_scope.

(** ** Python strings *)

(** A character is a code point, a [str] a sequence of them. *)
Abbreviation char := N (only parsing).
Abbreviation str := (list N) (only parsing).

(** The text of an ASCII literal. *)
Definition py (s : string) : str := N_of_ascii <$> list_ascii_of_string s.

(** Code points the source names. *)
Definition LF : char := 10%N.       (* the newline *)
Definition DQUOTE : char := 34%N.   (* the double quote *)
Definition SQUOTE : char := 39%N.   (* ' *)
Definition COMMA : char := 44%N.    (* , *)
Definition SEMI : char := 59%N.     (* ; *)
Definition LBRACE : char := 123%N.  (* { *)
Definition RBRACE : char := 125%N.  (* } *)

(** [str.isspace] on one character, which is also what [\s] matches in a
    [str] pattern and what [str.strip()] removes (CPython's
    [_PyUnicode_IsWhitespace]). *)
Definition isspace (c : char) : bool :=
  ((9 <=? c) && (c <=? 13) || (28 <=? c) && (c <=? 32) || (c =? 133) ||
   (c =? 160) || (c =? 5760) || (8192 <=? c) && (c <=? 8202) ||
   (c =? 8232) || (c =? 8233) || (c =? 8239) || (c =? 8287) ||
   (c =? 12288))%N.

(** [s.startswith(p)]. *)
Fixpoint startswith (p s : str) : bool :=
  match p, s with
  | [], _ => true
  | a :: p', b :: s' => (a =? b)%N && startswith p' s'
  | _ :: _, [] => false
  end.

(** [s.endswith(p)]. *)
Definition endswith (p s : str) : bool := startswith (reverse p) (reverse s).

(** [sep in s]. *)
Fixpoint contains (sep s : str) : bool :=
  startswith sep s || match s with [] => false | _ :: s' => contains sep s' end.

(** [s.split(sep)] for a non-empty [sep]: the occurrences of [sep] are
    found left to right without overlap; [skip] counts the characters of
    an occurrence still to pass over, [cur] holds the current piece
    reversed. *)
Fixpoint split_aux (sep : str) (skip : nat) (cur : str) (s : str) : list str :=
  match s with
  | [] => [reverse cur]
  | c :: s' =>
      match skip with
      | S k => split_aux sep k cur s'
      | O =>
          if startswith sep s
          then reverse cur :: split_aux sep (length sep - 1) [] s'
          else split_aux sep 0 (c :: cur) s'
      end
  end.

Definition split (sep s : str) : list str := split_aux sep 0 [] s.

(** [s.strip()]. *)
Fixpoint lstrip (s : str) : str :=
  match s with
  | c :: s' => if isspace c then lstrip s' else s
  | [] => []
  end.

Definition rstrip (s : str) : str := reverse (lstrip (reverse s)).
Definition strip (s : str) : str := rstrip (lstrip s).

(** [sep.join(l)]. *)
Fixpoint join (sep : str) (l : list str) : str :=
  match l with
  | [] => []
  | [x] => x
  | x :: l' => x ++ sep ++ join sep l'
  end.

(** ** Exceptions *)

Inductive exn : Type :=
| ValueError          (* unpacking a list of the wrong length *)
| FileNotFoundError.  (* [open] on a path that is not a file *)

Inductive result (A : Type) : Type :=
| Ok (a : A)
| Raise (e : exn).
Arguments Ok {A} a.
Arguments Raise {A} e.

#[global] Instance result_bind : MBind result := λ A B k r,
  match r with
  | Ok a => k a
  | Raise e => Raise e
  end.

(** A [for] loop that builds a list by [append], one call per element,
    stopping at the first exception. *)
Fixpoint for_each {A B} (f : A → result B) (l : list A) : result (list B) :=
  match l with
  | [] => Ok []
  | a :: l' => b ← f a; bs ← for_each f l'; Ok (b :: bs)
  end.

(** ** The regular expression *)

(** The fragment of [re] syntax the pattern uses. *)
Inductive node : Type :=
| Lit (c : char)                     (* one literal character *)
| InSet (p : char → bool)            (* a character set *)
| MaxRepeat1 (p : char → bool)       (* set+, greedy *)
| Group1 (p : char → bool)           (* (set+), greedy, captured as group 1 *)
| Optional (c : char).               (* c?, greedy *)

Definition literal (s : string) : list node := Lit <$> py s.

(** One [node] consumed one more character. *)
Definition advance (r : option (nat * option str)) : option (nat * option str) :=
  match r with
  | Some (n, g) => Some (S n, g)
  | None => None
  end.

(** The backtracking matcher: [rmatch re s] matches [re] at the start of
    [s] and returns the length of the match and the text of group 1.
    A repeat takes as many characters as it can and gives them back one
    at a time while the rest of the pattern fails. *)
Fixpoint rmatch (re : list node) (s : str) : option (nat * option str) :=
  match re with
  | [] => Some (0, None)
  | Lit c :: re' =>
      match s with
      | x :: s' => if (x =? c)%N then advance (rmatch re' s') else None
      | [] => None
      end
  | InSet p :: re' =>
      match s with
      | x :: s' => if p x then advance (rmatch re' s') else None
      | [] => None
      end
  | MaxRepeat1 p :: re' =>
      (fix greedy (s : str) : option (nat * option str) :=
         match s with
         | x :: s' =>
             if p x
             then match greedy s' with
                  | Some r => advance (Some r)
                  | None => advance (rmatch re' s')
                  end
             else None
         | [] => None
         end) s
  | Group1 p :: re' =>
      match
        (fix greedy (s : str) : option (nat * (nat * option str)) :=
           match s with
           | x :: s' =>
               if p x
               then match greedy s' with
                    | Some (k, r) => Some (S k, r)
                    | None =>
                        match rmatch re' s' with
                        | Some r => Some (1, r)
                        | None => None
                        end
                    end
               else None
           | [] => None
           end) s
      with
      | Some (k, (n, _)) => Some (k + n, Some (take k s))
      | None => None
      end
  | Optional c :: re' =>
      match s with
      | x :: s' =>
          if (x =? c)%N
          then match rmatch re' s' with
               | Some r => advance (Some r)
               | None => rmatch re' s
               end
          else rmatch re' s
      | [] => rmatch re' s
      end
  end.

Definition PACKAGE : str := py "@tabler/icons-react".

Definition not_rbrace (c : char) : bool := negb (c =? RBRACE)%N.
Definition quote (c : char) : bool := (c =? SQUOTE)%N || (c =? DQUOTE)%N.

(** Line 9: [import\s+\{([^}]+)\}\s+from\s+Q@tabler/icons-reactQ;?]
    where [Q] stands for the set of the single and the double quote.
    [re.MULTILINE] changes only [^] and [$], which the pattern does not
    use. *)
Definition pattern : list node :=
  literal "import" ++
  [MaxRepeat1 isspace; Lit LBRACE; Group1 not_rbrace; Lit RBRACE;
   MaxRepeat1 isspace] ++
  literal "from" ++
  [MaxRepeat1 isspace; InSet quote] ++ (Lit <$> PACKAGE) ++
  [InSet quote; Optional SEMI].

(** A match object: [start()], [end()] and [group(1)]. *)
Record Match : Type := mkMatch {
  m_start : nat;
  m_end : nat;
  m_group1 : str
}.

(** [pattern.match] at the position where [s] begins. *)
Definition match_here (s : str) : option (nat * str) :=
  match rmatch pattern s with
  | Some (n, Some g) => Some (n, g)
  | _ => None
  end.

(** [pattern.finditer]: the matches from left to right, the search for
    the next one starting where the last one ended.  [pos] is the offset
    of [s] in the content, [skip] the number of characters of the last
    match still ahead.  (The pattern matches no empty string, so the rule
    for empty matches is not needed.) *)
Fixpoint scan (pos skip : nat) (s : str) : list Match :=
  match skip with
  | S k =>
      match s with
      | [] => []
      | _ :: s' => scan (S pos) k s'
      end
  | O =>
      match match_here s with
      | Some (n, g) =>
          mkMatch pos (pos + n) g ::
          match s with
          | [] => []
          | _ :: s' => scan (S pos) (n - 1) s'
          end
      | None =>
          match s with
          | [] => []
          | _ :: s' => scan (S pos) 0 s'
          end
      end
  end.

Definition finditer (content : str) : list Match := scan 0 0 content.

(** ** The rewriter *)

Definition AS : str := py " as ".

(** Lines 25 to 31: the import line of one symbol.  Unpacking the result
    of [split] into two names raises [ValueError] unless it has exactly
    two elements. *)
Definition import_line (icon : str) : result str :=
  if contains AS icon then
    match split AS icon with
    | [orig; alias] =>
        let orig := strip orig in
        let alias := strip alias in
        Ok (py "import " ++ alias ++ py " from '@tabler/icons-react" ++ orig ++
            py ".mjs';")
    | _ => Raise ValueError
    end
  else
    Ok (py "import " ++ icon ++ py " from '@tabler/icons-react" ++ icon ++
        py ".mjs';").

(** Lines 20 and 21: the symbols of a brace content. *)
Definition icons_of (icons_block : str) : list str :=
  filter (λ i, i ≠ []) (strip <$> split [COMMA] icons_block).

(** Lines 19 to 31: the lines that replace one statement. *)
Definition replacement_of (icons_block : str) : result (list str) :=
  for_each import_line (icons_of icons_block).

(** Lines 18 to 33: one turn of the loop over the matches. *)
Definition splice (new_content : str) (m : Match) : result str :=
  replacement ← replacement_of (m_group1 m);
  Ok (take (m_start m) new_content ++ join [LF] replacement ++
      drop (m_end m) new_content).

Fixpoint splice_all (ms : list Match) (new_content : str) : result str :=
  match ms with
  | [] => Ok new_content
  | m :: ms' => new_content' ← splice new_content m; splice_all ms' new_content'
  end.

(** Lines 9 to 39 on the text read from the file: the text to write back
    and whether the function writes it and returns [True]. *)
Definition rewrite_file (content : str) : result (str * bool) :=
  match finditer content with
  | [] => Ok (content, false)
  | matches =>
      new_content ← splice_all (reverse matches) content;
      if decide (new_content ≠ content)
      then Ok (new_content, true)
      else Ok (content, false)
  end.

(** The files, by path, as the texts [read] returns and [write] takes. *)
Abbreviation files := (gmap (list N) (list N)) (only parsing).

(** Lines 4 to 39. *)
Definition refactor_icons (fs : files) (file_path : str) : result (files * bool) :=
  match fs !! file_path with
  | None => Raise FileNotFoundError
  | Some content =>
      match rewrite_file content with
      | Ok (new_content, true) => Ok (<[file_path := new_content]> fs, true)
      | Ok (_, false) => Ok (fs, false)
      | Raise e => Raise e
      end
  end.

(** ** The driver *)

(** [os.path.join(a, b)] of [posixpath]. *)
Definition os_path_join (a b : str) : str :=
  if startswith (py "/") b then b
  else if bool_decide (a = []) || endswith (py "/") a then a ++ b
  else a ++ py "/" ++ b.

(** [str(count)]. *)
Definition str_of_nat (n : nat) : str := py (NilEmpty.string_of_uint (Nat.to_uint n)).

(** What the module-level code has done so far: the files, the lines
    printed and the counter. *)
Record state : Type := mkState {
  st_files : files;
  st_stdout : list (list N);
  st_count : nat
}.

(** Lines 44 to 48: the body of the inner loop. *)
Definition visit_file (root : str) (st : state) (file : str) : result state :=
  if endswith (py ".tsx") file || endswith (py ".ts") file then
    let path := os_path_join root file in
    match refactor_icons (st_files st) path with
    | Ok (fs, true) =>
        Ok (mkState fs (st_stdout st ++ [py "Refactored " ++ path])
                    (st_count st + 1))
    | Ok (fs, false) => Ok (mkState fs (st_stdout st) (st_count st))
    | Raise e => Raise e
    end
  else Ok st.

(** A [for] loop over [l] that threads the state through [body]. *)
Fixpoint for_state {A S} (body : S → A → result S) (l : list A) (st : S) : result S :=
  match l with
  | [] => Ok st
  | a :: l' => st' ← body st a; for_state body l' st'
  end.

(** Lines 41 to 49.  [walk] is what [os.walk('ui/src')] yields: for each
    directory its path, its subdirectories and its files. *)
Definition main (walk : list (list N * list (list N) * list (list N))) (fs : files)
  : result state :=
  st ← for_state (λ st entry, for_state (visit_file entry.1.1) entry.2 st)
         walk (mkState fs [] 0);
  Ok (mkState (st_files st)
              (st_stdout st ++ [py "Total refactored: " ++ str_of_nat (st_count st)])
              (st_count st)).

(** * Notions the properties are stated with *)

Definition advance_by (k : nat) (r : option (nat * option (list N)))
  : option (nat * option (list N)) :=
  match r with
  | Some (n, g) => Some (k + n, g)
  | None => None
  end.

(** The run of the captured repeat, apart from [rmatch]: the characters
    the repeat keeps and the result of the rest of the pattern. *)
Definition group_run (p : N → bool) (k : list N → option (nat * option (list N)))
  : list N → option (nat * (nat * option (list N))) :=
  fix greedy (s : list N) :=
    match s with
    | x :: s' =>
        if p x
        then match greedy s' with
             | Some (j, r) => Some (S j, r)
             | None =>
                 match k s' with
                 | Some r => Some (1, r)
                 | None => None
                 end
             end
        else None
    | [] => None
    end.

(** The optional semicolon that ends the pattern. *)
Definition semicolon (s : str) : nat :=
  match s with
  | x :: _ => if (x =? SEMI)%N then 1 else 0
  | [] => 0
  end.

(** A non-empty run of white space. *)
Definition spaces (ws : str) : Prop :=
  ws ≠ [] ∧ Forall (λ c, isspace c = true) ws.

(** A non-empty brace content: no closing brace in it. *)
Definition braced (block : str) : Prop :=
  block ≠ [] ∧ Forall (λ c, not_rbrace c = true) block.

(** The text of an import statement up to its closing quote. *)
Definition statement (ws1 block ws2 ws3 : str) (q1 : N) (pkg : str) (q2 : N) : str :=
  py "import" ++ ws1 ++ LBRACE :: block ++ RBRACE :: ws2 ++ py "from" ++ ws3 ++
  q1 :: pkg ++ [q2].

(** A match moved [k] characters to the right. *)
Definition shift (k : nat) (m : Match) : Match :=
  mkMatch (k + m_start m) (k + m_end m) (m_group1 m).

(** A stretch of text in which no match starts is passed over. *)
Definition matchless (p rest : str) : Prop :=
  ∀ a b, p = a ++ b → b ≠ [] → match_here (b ++ rest) = None.

(** [matchless], decided by trying every position of the stretch. *)
Fixpoint matchlessb (p rest : str) : bool :=
  match p with
  | [] => true
  | _ :: p' =>
      match match_here (p ++ rest) with
      | None => matchlessb p' rest
      | Some _ => false
      end
  end.

(** The working text when the loop of lines 17 to 33 ends. *)
Definition new_content_of (content : str) : result (list N) :=
  splice_all (reverse (finditer content)) content.

(** The line of a symbol bound as [name] and loaded from the file of
    [orig]. *)
Definition import_from (name orig : str) : str :=
  py "import " ++ name ++ py " from '@tabler/icons-react" ++ orig ++ py ".mjs';".

(** The characters a replacement adds to those of the symbol list. *)
Definition template : str := LF :: py "import  from '@tabler/icons-react.mjs';".

(** The part of a statement after the closing brace. *)
Definition from_clause (ws2 ws3 : str) (q1 : N) (pkg : str) (q2 : N) : str :=
  ws2 ++ py "from" ++ ws3 ++ q1 :: pkg ++ [q2].

(** The closing braces of a text. *)
Definition rbraces (s : str) : nat := length (filter (λ c, c = RBRACE) s).

(** The symbol lists of a content name at least one symbol each and hold
    no opening brace. *)
Definition plain_lists (content : str) : Prop :=
  Forall (λ m, (LBRACE ∉ m_group1 m) ∧ icons_of (m_group1 m) ≠ [])
         (finditer content).

(** The texts at whose start a qualifying statement stands. *)
Definition qualifying (b : str) : Prop :=
  ∃ ws1 block ws2 ws3 q1 q2 rest,
    b = statement ws1 block ws2 ws3 q1 PACKAGE q2 ++ rest ∧
    spaces ws1 ∧ braced block ∧ spaces ws2 ∧ spaces ws3 ∧
    quote q1 = true ∧ quote q2 = true.

(** [file.endswith('.tsx') or file.endswith('.ts')]. *)
Definition has_extension (file : str) : bool :=
  endswith (py ".tsx") file || endswith (py ".ts") file.

(** The paths the driver hands to [refactor_icons], in order. *)
Fixpoint candidates (walk : list (list N * list (list N) * list (list N)))
  : list (list N) :=
  match walk with
  | [] => []
  | entry :: walk' =>
      (os_path_join entry.1.1 <$> filter (λ f, has_extension f = true) entry.2) ++
      candidates walk'
  end.

(** Lines 45 to 48 for one path. *)
Definition process (st : state) (path : str) : result state :=
  match refactor_icons (st_files st) path with
  | Ok (fs, true) =>
      Ok (mkState fs (st_stdout st ++ [py "Refactored " ++ path]) (st_count st + 1))
  | Ok (fs, false) => Ok (mkState fs (st_stdout st) (st_count st))
  | Raise e => Raise e
  end.

(** Whether [refactor_icons] finds a statement in the file at [path]. *)
Definition modifies (fs : files) (path : str) : bool :=
  match fs !! path with
  | Some content => bool_decide (finditer content ≠ [])
  | None => false
  end.

Definition refactored (path : str) : str := py "Refactored " ++ path.

Definition scenario : str :=
  py "import { IconHome, IconUser as UserIcon } from '@tabler/icons-react';".

(** The first place at which [sep] occurs in [a ++ sep ++ b] is the end
    of [a]. *)
Definition first_at (sep a b : str) : Prop :=
  ∀ a1 a2, a = a1 ++ a2 → a2 ≠ [] → startswith sep (a2 ++ sep ++ b) = false.


(** A match [a] ends before a match [b] starts. *)
Definition before (a b : Match) : Prop := m_end a ≤ m_start b.

(** Lines 41 to 49 with what an exception leaves behind: the state
    reached when the loops end, and the exception that ended them, if
    any.  A call of [refactor_icons] that raises has written nothing, so
    the state is that before the call. *)
Definition visit_file_keep (root : str) (st : state) (file : str)
  : state * option exn :=
  match visit_file root st file with
  | Ok st' => (st', None)
  | Raise e => (st, Some e)
  end.

Fixpoint for_keep {A} (body : state → A → state * option exn) (l : list A)
         (st : state) : state * option exn :=
  match l with
  | [] => (st, None)
  | a :: l' =>
      match body st a with
      | (st', None) => for_keep body l' st'
      | (st', Some e) => (st', Some e)
      end
  end.

Definition run (walk : list (list N * list (list N) * list (list N))) (fs : files)
  : state * option exn :=
  match for_keep (λ st entry, for_keep (visit_file_keep entry.1.1) entry.2 st)
                 walk (mkState fs [] 0) with
  | (st, None) =>
      (mkState (st_files st)
               (st_stdout st ++ [py "Total refactored: " ++ str_of_nat (st_count st)])
               (st_count st), None)
  | (st, Some e) => (st, Some e)
  end.

(** The separator of paths. *)
Definition SLASH : N := 47%N.

(** Lines 45 to 48 for one path, with what an exception leaves behind. *)
Definition process_keep (st : state) (path : str) : state * option exn :=
  match process st path with
  | Ok st' => (st', None)
  | Raise e => (st, Some e)
  end.

(** A walk as [os.walk] yields it: every directory once, named and
    without separator at its end, the names of its files distinct and
    without separator. *)
Definition tree_walk (walk : list (list N * list (list N) * list (list N))) : Prop :=
  NoDup ((λ entry, entry.1.1) <$> walk) ∧
  Forall (λ entry,
            entry.1.1 ≠ [] ∧ endswith (py "/") entry.1.1 = false ∧
            NoDup entry.2 ∧ Forall (λ file, SLASH ∉ file) entry.2) walk.

(** [first_at], decided by trying every position of [a]. *)
Fixpoint first_atb (sep a b : str) : bool :=
  match a with
  | [] => true
  | _ :: a' => negb (startswith sep (a ++ sep ++ b)) && first_atb sep a' b
  end.

(** * Properties *)

(** A character that is not in a literal text, by computation. *)
Ltac not_in_literal :=
  match goal with
  | |- ?c ∈ ?l → False => change (c ∉ l)
  | |- _ => idtac
  end;
  apply (bool_decide_unpack _); by vm_compute.

(** ** Lists of characters *)

Lemma startswith_app (p s : str) : startswith p (p ++ s) = true.
Proof. induction p as [|a p IH]; simpl; [done|]. by rewrite N.eqb_refl. Qed.

Lemma startswith_inv (p s : str) :
  startswith p s = true → ∃ r, s = p ++ r.
Proof.
  revert s. induction p as [|a p IH]; intros s H; simpl in *.
  - by exists s.
  - destruct s as [|b s]; [done|].
    apply andb_true_iff in H as [Hab H]. apply N.eqb_eq in Hab as ->.
    destruct (IH _ H) as [r ->]. by exists r.
Qed.

(** Where [c] first occurs in a list is determined by the list. *)
Lemma first_occurrence (c : N) (a b a' b' : str) :
  c ∉ a → c ∉ a' → a ++ c :: b = a' ++ c :: b' → a = a' ∧ b = b'.
Proof.
  revert a'. induction a as [|x a IH]; intros [|x' a'] Ha Ha' E; simpl in *.
  - by injection E as ->.
  - injection E as -> _. contradict Ha'. left.
  - injection E as -> _. contradict Ha. left.
  - injection E as -> E. destruct (IH a') as [-> ->]; [| |done|done].
    + intros ?. apply Ha. by right.
    + intros ?. apply Ha'. by right.
Qed.

(** A list free of [c] that starts a list lies before the first [c]. *)
Lemma before_first (c : N) (x y a z : str) :
  c ∉ x → x ++ y = a ++ c :: z → ∃ h, a = x ++ h ∧ y = h ++ c :: z.
Proof.
  revert a. induction x as [|e x IH]; intros a Hx E; simpl in *.
  - by exists a.
  - destruct a as [|e' a]; simpl in *.
    + injection E as -> _. contradict Hx. left.
    + injection E as -> E. destruct (IH a) as (h & -> & ->); [|done|].
      * intros ?. apply Hx. by right.
      * by exists h.
Qed.

(** A maximal run of characters of a set is determined by the list. *)
Lemma run_unique (p : N → bool) (ws ws' : str) (x x' : N) (r r' : str) :
  Forall (λ c, p c = true) ws → Forall (λ c, p c = true) ws' →
  p x = false → p x' = false →
  ws ++ x :: r = ws' ++ x' :: r' → ws = ws' ∧ x = x' ∧ r = r'.
Proof.
  intros Hws. revert ws'. induction Hws as [|c ws Hc Hws IH];
    intros ws' Hws' Hx Hx' E; destruct Hws' as [|c' ws' Hc' Hws']; simpl in *.
  - by injection E as -> ->.
  - injection E as -> _. congruence.
  - injection E as -> _. congruence.
  - injection E as -> E. destruct (IH ws') as (-> & -> & ->); done.
Qed.

(** ** The matcher on the nodes of the pattern *)

Lemma rmatch_Lit (c : N) (re : list node) (s : str) :
  rmatch (Lit c :: re) (c :: s) = advance_by 1 (rmatch re s).
Proof. simpl. by rewrite N.eqb_refl. Qed.

Lemma rmatch_Lit_inv (c : N) (re : list node) (s : str) n g :
  rmatch (Lit c :: re) s = Some (n, g) →
  ∃ s' n', s = c :: s' ∧ rmatch re s' = Some (n', g) ∧ n = 1 + n'.
Proof.
  simpl. destruct s as [|x s]; [done|].
  destruct (N.eqb_spec x c) as [->|]; [|done].
  destruct (rmatch re s) as [[n' g']|] eqn:Hr; [|done].
  intros [= <- <-]. by exists s, n'.
Qed.

Lemma rmatch_InSet (p : N → bool) (c : N) (re : list node) (s : str) :
  p c = true → rmatch (InSet p :: re) (c :: s) = advance_by 1 (rmatch re s).
Proof. simpl. by intros ->. Qed.

Lemma rmatch_InSet_inv (p : N → bool) (re : list node) (s : str) n g :
  rmatch (InSet p :: re) s = Some (n, g) →
  ∃ c s' n', s = c :: s' ∧ p c = true ∧ rmatch re s' = Some (n', g) ∧ n = 1 + n'.
Proof.
  simpl. destruct s as [|x s]; [done|].
  destruct (p x) eqn:Hx; [|done].
  destruct (rmatch re s) as [[n' g']|] eqn:Hr; [|done].
  intros [= <- <-]. by exists x, s, n'.
Qed.

Lemma rmatch_literal (l : str) (re : list node) (s : str) :
  rmatch ((Lit <$> l) ++ re) (l ++ s) = advance_by (length l) (rmatch re s).
Proof.
  induction l as [|c l IH].
  - change (rmatch re s = advance_by 0 (rmatch re s)).
    by destruct (rmatch re s) as [[]|].
  - change (rmatch (Lit c :: ((Lit <$> l) ++ re)) (c :: (l ++ s)) =
            advance_by (S (length l)) (rmatch re s)).
    rewrite rmatch_Lit, IH. by destruct (rmatch re s) as [[]|].
Qed.

Lemma rmatch_literal_inv (l : str) (re : list node) (s : str) n g :
  rmatch ((Lit <$> l) ++ re) s = Some (n, g) →
  ∃ s' n', s = l ++ s' ∧ rmatch re s' = Some (n', g) ∧ n = length l + n'.
Proof.
  revert s n. induction l as [|c l IH]; intros s n H.
  - by exists s, n.
  - change (rmatch (Lit c :: ((Lit <$> l) ++ re)) s = Some (n, g)) in H.
    apply rmatch_Lit_inv in H as (s' & n' & -> & H & ->).
    apply IH in H as (s'' & n'' & -> & H & ->). by exists s'', n''.
Qed.

(** A greedy repeat followed by something no character of the set can
    start: the repeat takes the whole run. *)
Lemma rmatch_MaxRepeat1 (p : N → bool) (re : list node) (ws s : str) r :
  ws ≠ [] → Forall (λ c, p c = true) ws →
  (∀ x s', s = x :: s' → p x = false) →
  rmatch re s = Some r →
  rmatch (MaxRepeat1 p :: re) (ws ++ s) = advance_by (length ws) (Some r).
Proof.
  intros Hne Hws Hs Hr. destruct r as [n g].
  induction Hws as [|c ws Hc Hws IH]; [done|].
  destruct ws as [|c' ws].
  - simpl. rewrite Hc. destruct s as [|x s'].
    + by rewrite Hr.
    + rewrite (Hs x s' eq_refl). by rewrite Hr.
  - simpl in *. rewrite Hc. by rewrite IH.
Qed.

Lemma rmatch_MaxRepeat1_inv (p : N → bool) (re : list node) (t : str) n g :
  rmatch (MaxRepeat1 p :: re) t = Some (n, g) →
  ∃ ws s n', t = ws ++ s ∧ ws ≠ [] ∧ Forall (λ c, p c = true) ws ∧
             rmatch re s = Some (n', g) ∧ n = length ws + n'.
Proof.
  revert n. induction t as [|x t IH]; intros n H; [done|].
  simpl in H. destruct (p x) eqn:Hx; [|done].
  match type of H with
  | match ?e with _ => _ end = _ => destruct e as [[k g']|] eqn:E
  end.
  - injection H as <- <-.
    destruct (IH k E) as (ws & s & n' & -> & _ & Hws & Hr & ->).
    exists (x :: ws), s, n'. repeat split; [done|by constructor|done].
  - destruct (rmatch re t) as [[n' g']|] eqn:Hr; [|done].
    injection H as <- <-. exists [x], t, n'.
    repeat split; [done|by repeat constructor|done].
Qed.

Lemma rmatch_Group1_unfold (p : N → bool) (re : list node) (s : str) :
  rmatch (Group1 p :: re) s =
  match group_run p (rmatch re) s with
  | Some (k, (n, _)) => Some (k + n, Some (take k s))
  | None => None
  end.
Proof. reflexivity. Qed.

Lemma group_run_intro (p : N → bool) k (ws s : str) r :
  ws ≠ [] → Forall (λ c, p c = true) ws →
  (∀ x s', s = x :: s' → p x = false) →
  k s = Some r →
  group_run p k (ws ++ s) = Some (length ws, r).
Proof.
  intros Hne Hws Hs Hr.
  induction Hws as [|c ws Hc Hws IH]; [done|].
  destruct ws as [|c' ws].
  - simpl. rewrite Hc. destruct s as [|x s']; simpl.
    + by rewrite Hr.
    + rewrite (Hs x s' eq_refl). by rewrite Hr.
  - simpl in *. rewrite Hc. by rewrite IH.
Qed.

Lemma group_run_inv (p : N → bool) k (t : str) j r :
  group_run p k t = Some (j, r) →
  ∃ ws s, t = ws ++ s ∧ ws ≠ [] ∧ Forall (λ c, p c = true) ws ∧
          k s = Some r ∧ j = length ws.
Proof.
  revert j. induction t as [|x t IH]; intros j H; [done|].
  simpl in H. destruct (p x) eqn:Hx; [|done].
  destruct (group_run p k t) as [[j' r']|] eqn:E.
  - injection H as <- <-.
    destruct (IH j' eq_refl) as (ws & s & -> & _ & Hws & Hr & ->).
    exists (x :: ws), s. repeat split; [done|by constructor|done].
  - destruct (k t) as [r'|] eqn:Hr; [|done].
    injection H as <- <-. exists [x], t.
    repeat split; [done|by repeat constructor|done].
Qed.

Lemma rmatch_Group1 (p : N → bool) (re : list node) (ws s : str) n g :
  ws ≠ [] → Forall (λ c, p c = true) ws →
  (∀ x s', s = x :: s' → p x = false) →
  rmatch re s = Some (n, g) →
  rmatch (Group1 p :: re) (ws ++ s) = Some (length ws + n, Some ws).
Proof.
  intros Hne Hws Hs Hr. rewrite rmatch_Group1_unfold.
  rewrite (group_run_intro p _ ws s (n, g)) by done.
  by rewrite take_app_length.
Qed.

Lemma rmatch_Group1_inv (p : N → bool) (re : list node) (t : str) n g :
  rmatch (Group1 p :: re) t = Some (n, g) →
  ∃ ws s n' g', t = ws ++ s ∧ ws ≠ [] ∧ Forall (λ c, p c = true) ws ∧
                rmatch re s = Some (n', g') ∧ n = length ws + n' ∧ g = Some ws.
Proof.
  rewrite rmatch_Group1_unfold.
  destruct (group_run p (rmatch re) t) as [[j [n' g']]|] eqn:E; [|done].
  intros [= <- <-].
  apply group_run_inv in E as (ws & s & -> & Hne & Hws & Hr & ->).
  exists ws, s, n', g'. by rewrite take_app_length.
Qed.

Lemma rmatch_Optional_last (c : N) (s : str) :
  rmatch [Optional c] s =
  Some (match s with x :: _ => if (x =? c)%N then 1 else 0 | [] => 0 end, None).
Proof. destruct s as [|x s]; simpl; [done|]. by destruct (x =? c)%N. Qed.

Lemma rmatch_Lit_intro (c : N) (re : list node) (s : str) n g :
  rmatch re s = Some (n, g) → rmatch (Lit c :: re) (c :: s) = Some (1 + n, g).
Proof. intros H. by rewrite rmatch_Lit, H. Qed.

Lemma rmatch_InSet_intro (p : N → bool) (c : N) (re : list node) (s : str) n g :
  p c = true → rmatch re s = Some (n, g) →
  rmatch (InSet p :: re) (c :: s) = Some (1 + n, g).
Proof. intros Hc H. by rewrite rmatch_InSet, H. Qed.

Lemma rmatch_literal_intro (l : str) (re : list node) (s : str) n g :
  rmatch re s = Some (n, g) →
  rmatch ((Lit <$> l) ++ re) (l ++ s) = Some (length l + n, g).
Proof. intros H. by rewrite rmatch_literal, H. Qed.

Lemma rmatch_MaxRepeat1_intro (p : N → bool) (re : list node) (ws s : str) n g :
  ws ≠ [] → Forall (λ c, p c = true) ws →
  (∀ x s', s = x :: s' → p x = false) →
  rmatch re s = Some (n, g) →
  rmatch (MaxRepeat1 p :: re) (ws ++ s) = Some (length ws + n, g).
Proof. intros ??? H. by rewrite (rmatch_MaxRepeat1 p re ws s (n, g)). Qed.

(** ** The statements the pattern matches *)

Lemma statement_app ws1 block ws2 ws3 q1 pkg q2 (rest : str) :
  statement ws1 block ws2 ws3 q1 pkg q2 ++ rest =
  py "import" ++ ws1 ++ LBRACE :: block ++ RBRACE :: ws2 ++ py "from" ++ ws3 ++
  q1 :: pkg ++ q2 :: rest.
Proof.
  unfold statement.
  repeat (rewrite <- ?app_assoc, <- ?app_comm_cons). done.
Qed.

Lemma match_here_intro ws1 block ws2 ws3 q1 q2 (rest : str) :
  spaces ws1 → braced block → spaces ws2 → spaces ws3 →
  quote q1 = true → quote q2 = true →
  match_here (statement ws1 block ws2 ws3 q1 PACKAGE q2 ++ rest) =
  Some (length (statement ws1 block ws2 ws3 q1 PACKAGE q2) + semicolon rest, block).
Proof.
  intros [? ?] [? ?] [? ?] [? ?] Hq1 Hq2.
  unfold match_here. rewrite statement_app.
  eassert (rmatch pattern _ = Some (_, Some block)) as ->.
  { unfold pattern, literal.
    apply rmatch_literal_intro.
    apply rmatch_MaxRepeat1_intro; [done|done|by intros ?? [= <- _]|].
    apply rmatch_Lit_intro.
    apply rmatch_Group1 with (g := None); [done|done|by intros ?? [= <- _]|].
    apply rmatch_Lit_intro.
    apply rmatch_MaxRepeat1_intro; [done|done|by intros ?? [= <- _]|].
    apply rmatch_literal_intro.
    apply rmatch_MaxRepeat1_intro; [done|done| |].
    { intros ?? [= <- _]. by destruct (orb_prop _ _ Hq1) as [->%N.eqb_eq| ->%N.eqb_eq]. }
    apply rmatch_InSet_intro; [done|].
    apply rmatch_literal_intro.
    apply rmatch_InSet_intro; [done|].
    apply rmatch_Optional_last. }
  f_equal. f_equal. unfold statement.
  repeat (rewrite ?length_app; cbn [length]). fold (semicolon rest). lia.
Qed.

Lemma match_here_elim (s : str) n g :
  match_here s = Some (n, g) →
  ∃ ws1 ws2 ws3 q1 q2 rest,
    s = statement ws1 g ws2 ws3 q1 PACKAGE q2 ++ rest ∧
    spaces ws1 ∧ braced g ∧ spaces ws2 ∧ spaces ws3 ∧
    quote q1 = true ∧ quote q2 = true ∧
    n = length (statement ws1 g ws2 ws3 q1 PACKAGE q2) + semicolon rest.
Proof.
  intros Hm. pose proof Hm as H. unfold match_here in H.
  destruct (rmatch pattern s) as [[n0 [g0|]]|] eqn:E; [|done|done].
  injection H as _ ->. unfold pattern, literal in E.
  apply rmatch_literal_inv in E as (s1 & n1 & -> & E & _).
  apply rmatch_MaxRepeat1_inv in E as (ws1 & s2 & n2 & -> & ? & ? & E & _).
  apply rmatch_Lit_inv in E as (s3 & n3 & -> & E & _).
  apply rmatch_Group1_inv in E as (g' & s4 & n4 & g4 & -> & ? & ? & E & _ & [= <-]).
  apply rmatch_Lit_inv in E as (s5 & n5 & -> & E & _).
  apply rmatch_MaxRepeat1_inv in E as (ws2 & s6 & n6 & -> & ? & ? & E & _).
  apply rmatch_literal_inv in E as (s7 & n7 & -> & E & _).
  apply rmatch_MaxRepeat1_inv in E as (ws3 & s8 & n8 & -> & ? & ? & E & _).
  apply rmatch_InSet_inv in E as (q1 & s9 & n9 & -> & Hq1 & E & _).
  apply rmatch_literal_inv in E as (s10 & n10 & -> & E & _).
  apply rmatch_InSet_inv in E as (q2 & rest & n11 & -> & Hq2 & E & _).
  exists ws1, ws2, ws3, q1, q2, rest.
  assert (Hs : py "import" ++ ws1 ++ LBRACE :: g ++ RBRACE :: ws2 ++ py "from" ++
               ws3 ++ q1 :: PACKAGE ++ q2 :: rest =
               statement ws1 g ws2 ws3 q1 PACKAGE q2 ++ rest)
    by (by rewrite statement_app).
  rewrite Hs in Hm |- *.
  rewrite match_here_intro in Hm by done. injection Hm as <-.
  by repeat split.
Qed.

(** A match is never empty and never longer than the text. *)
Lemma match_here_length (s : str) n g :
  match_here s = Some (n, g) → 0 < n ≤ length s.
Proof.
  intros (ws1 & ws2 & ws3 & q1 & q2 & rest & -> & _ & _ & _ & _ & _ & _ & ->)
    %match_here_elim.
  rewrite length_app. split.
  - unfold statement. rewrite length_app. simpl. lia.
  - destruct rest as [|x rest]; simpl; [lia|]. destruct (x =? SEMI)%N; lia.
Qed.

(** ** [finditer] *)

Lemma match_here_nil : match_here [] = None.
Proof. reflexivity. Qed.

Lemma scan_nil pos skip : scan pos skip [] = [].
Proof. by destruct skip. Qed.

Lemma scan_skip pos k (s : str) :
  k ≤ length s → scan pos k s = scan (pos + k) 0 (drop k s).
Proof.
  revert pos s. induction k as [|k IH]; intros pos s Hk.
  - by rewrite Nat.add_0_r, drop_0.
  - destruct s as [|x s]; simpl in Hk; [lia|].
    change (scan (S pos) k s = scan (pos + S k) 0 (drop k s)).
    rewrite IH by lia. f_equal. lia.
Qed.

Lemma scan_hit pos (s : str) n g :
  match_here s = Some (n, g) →
  scan pos 0 s = mkMatch pos (pos + n) g :: scan (pos + n) 0 (drop n s).
Proof.
  intros H. pose proof (match_here_length _ _ _ H) as [Hn Hs].
  destruct s as [|x s]; simpl in Hs; [lia|].
  destruct n as [|n]; [lia|].
  cbn [scan]. rewrite H. f_equal.
  rewrite scan_skip by lia. simpl. rewrite Nat.sub_0_r. f_equal. lia.
Qed.

Lemma scan_miss pos (x : N) (s : str) :
  match_here (x :: s) = None → scan pos 0 (x :: s) = scan (S pos) 0 s.
Proof. intros H. cbn [scan]. by rewrite H. Qed.

Lemma scan_shift pos skip (s : str) :
  scan pos skip s = shift pos <$> scan 0 skip s.
Proof.
  assert (Hc : ∀ a b (l : list Match),
            shift a <$> (shift b <$> l) = shift (a + b) <$> l).
  { intros a b l. rewrite <- list_fmap_compose. apply list_fmap_ext.
    intros _ [s0 e0 g0] _. unfold shift; simpl. f_equal; lia. }
  revert pos skip. induction s as [|x s IH]; intros pos skip.
  - by rewrite !scan_nil.
  - destruct skip as [|k].
    + cbn [scan]. destruct (match_here (x :: s)) as [[n g]|].
      * rewrite fmap_cons. f_equal.
        { unfold shift; simpl. f_equal; lia. }
        rewrite (IH (S pos)), (IH 1), Hc. do 2 f_equal. lia.
      * rewrite (IH (S pos)), (IH 1), Hc. do 2 f_equal. lia.
    + cbn [scan]. rewrite (IH (S pos)), (IH 1), Hc. do 2 f_equal. lia.
Qed.

Lemma scan_gap pos (p s : str) :
  matchless p s → scan pos 0 (p ++ s) = scan (pos + length p) 0 s.
Proof.
  revert pos. induction p as [|x p IH]; intros pos Hp; cbn [app length].
  - by rewrite Nat.add_0_r.
  - rewrite scan_miss by (by apply (Hp [] (x :: p))).
    rewrite IH; [f_equal; lia|].
    intros a b -> Hb. by apply (Hp (x :: a) b).
Qed.

(** The first match of a text, when there is one. *)
Lemma finditer_first (p m rest : str) g :
  matchless p (m ++ rest) →
  match_here (m ++ rest) = Some (length m, g) →
  finditer (p ++ m ++ rest) =
  mkMatch (length p) (length p + length m) g ::
  (shift (length (p ++ m)) <$> finditer rest).
Proof.
  intros Hp Hm. unfold finditer. rewrite scan_gap by done. simpl.
  rewrite (scan_hit _ _ _ _ Hm). f_equal.
  rewrite drop_app_length, scan_shift, length_app. done.
Qed.

Lemma finditer_none (s : str) :
  matchless s [] → finditer s = [].
Proof.
  intros H. unfold finditer.
  rewrite <- (app_nil_r s), scan_gap by done. apply scan_nil.
Qed.

Lemma matchlessb_sound (p rest : str) :
  matchlessb p rest = true → matchless p rest.
Proof.
  induction p as [|c p IH]; simpl.
  - intros _ a b E Hb. by destruct a, b.
  - destruct (match_here (c :: p ++ rest)) eqn:Hc; [done|].
    intros H a b E Hb. destruct a as [|y a]; simpl in E.
    + by subst b.
    + injection E as -> ->. by apply (IH H a b).
Qed.

(** Every text is matchless or has a first match. *)
Lemma first_match (s : str) :
  matchless s [] ∨
  ∃ p m rest g, s = p ++ m ++ rest ∧ matchless p (m ++ rest) ∧
                match_here (m ++ rest) = Some (length m, g).
Proof.
  induction s as [|x s IH].
  - left. intros a b E Hb. by destruct a, b.
  - destruct (match_here (x :: s)) as [[n g]|] eqn:Hx.
    + right. exists [], (take n (x :: s)), (drop n (x :: s)), g.
      pose proof (match_here_length _ _ _ Hx) as [_ Hn].
      rewrite take_drop, length_take_le by done. split; [done|]. split; [|done].
      intros a b E Hb. by destruct a, b.
    + destruct IH as [IH|(p & m & rest & g & -> & Hp & Hm)].
      * left. intros a b E Hb. destruct a as [|y a]; simpl in E.
        { subst b. by rewrite app_nil_r. }
        injection E as -> ->. by apply (IH a b).
      * right. exists (x :: p), m, rest, g. split; [done|]. split; [|done].
        intros a b E Hb. destruct a as [|y a]; simpl in E.
        { by subst b. }
        injection E as -> ->. by apply (Hp a b).
Qed.

(** Induction on a text along its matches. *)
Lemma content_ind (P : list N → Prop) :
  (∀ s, matchless s [] → P s) →
  (∀ p m rest g,
     matchless p (m ++ rest) →
     match_here (m ++ rest) = Some (length m, g) →
     P rest → P (p ++ m ++ rest)) →
  ∀ s, P s.
Proof.
  intros Hnone Hfirst s.
  remember (length s) as k eqn:Hk. revert s Hk.
  induction (lt_wf k) as [k _ IH]. intros s ->.
  destruct (first_match s) as [H|(p & m & rest & g & -> & Hp & Hm)].
  - by apply Hnone.
  - apply (Hfirst p m rest g Hp Hm), (IH (length rest)); [|done].
    pose proof (match_here_length _ _ _ Hm) as [Hn _].
    rewrite !length_app. lia.
Qed.

(** ** Splicing *)

Lemma bind_Ok {A B} (a : A) (k : A → result B) : (Ok a ≫= k) = k a.
Proof. reflexivity. Qed.

Lemma bind_Raise {A B} e (k : A → result B) : (Raise e ≫= k) = Raise e.
Proof. reflexivity. Qed.

Lemma splice_all_app (l1 l2 : list Match) (x : str) :
  splice_all (l1 ++ l2) x = splice_all l1 x ≫= splice_all l2.
Proof.
  revert x. induction l1 as [|m l1 IH]; intros x; [done|].
  cbn [app splice_all]. destruct (splice x m) as [x'|e]; [|done].
  rewrite !bind_Ok. apply IH.
Qed.

(** Text in front of the working text moves the splice with it. *)
Lemma splice_shift (pre x : str) (m : Match) :
  splice (pre ++ x) (shift (length pre) m) = splice x m ≫= λ o, Ok (pre ++ o).
Proof.
  unfold splice, shift; simpl.
  destruct (replacement_of (m_group1 m)) as [r|e]; [|done].
  rewrite !bind_Ok, take_app_add, drop_app_add. by rewrite <- app_assoc.
Qed.

Lemma splice_all_shift (pre : str) (ms : list Match) (x : str) :
  splice_all (shift (length pre) <$> ms) (pre ++ x) =
  splice_all ms x ≫= λ o, Ok (pre ++ o).
Proof.
  revert x. induction ms as [|m ms IH]; intros x; [done|].
  rewrite fmap_cons. cbn [splice_all]. rewrite splice_shift.
  destruct (splice x m) as [x'|e]; [|done].
  rewrite !bind_Ok. apply IH.
Qed.

Lemma new_content_none (s : str) : matchless s [] → new_content_of s = Ok s.
Proof. intros H. unfold new_content_of. by rewrite finditer_none. Qed.

(** The loop on a text with a first match: the rest of the text is
    rewritten on its own, then the first match is replaced. *)
Lemma new_content_first (p m rest : str) g :
  matchless p (m ++ rest) →
  match_here (m ++ rest) = Some (length m, g) →
  new_content_of (p ++ m ++ rest) =
  new_content_of rest ≫= λ o,
  replacement_of g ≫= λ r, Ok (p ++ join [LF] r ++ o).
Proof.
  intros Hp Hm. unfold new_content_of.
  rewrite (finditer_first _ _ _ _ Hp Hm), reverse_cons, <- fmap_reverse.
  rewrite splice_all_app, (assoc_L (++) p m rest), splice_all_shift.
  destruct (splice_all (reverse (finditer rest)) rest) as [o|e]; [|done].
  rewrite !bind_Ok. cbn [splice_all]. unfold splice; simpl.
  destruct (replacement_of g) as [r|e]; [|done].
  rewrite !bind_Ok. rewrite <- (assoc_L (++) p m o).
  rewrite take_app_length.
  rewrite <- (length_app p m), (assoc_L (++) p m o), drop_app_length. done.
Qed.

(** ** The pieces of a symbol list *)

Lemma lstrip_subseteq (s : str) : lstrip s ⊆ s.
Proof.
  induction s as [|c s IH]; simpl; [done|].
  destruct (isspace c); [|done]. intros x Hx. right. by apply IH.
Qed.

Lemma strip_subseteq (s : str) : strip s ⊆ s.
Proof.
  intros x. unfold strip, rstrip. rewrite elem_of_reverse.
  intros Hx%lstrip_subseteq. rewrite elem_of_reverse in Hx.
  by apply lstrip_subseteq.
Qed.

Lemma split_aux_subseteq (sep : str) skip (cur s part : str) :
  part ∈ split_aux sep skip cur s → part ⊆ cur ++ s.
Proof.
  revert skip cur. induction s as [|c s IH]; intros skip cur; simpl.
  - intros ->%list_elem_of_singleton x. rewrite elem_of_reverse, app_nil_r. done.
  - assert (Hstep : ∀ k cur', cur' ⊆ c :: cur →
                    part ∈ split_aux sep k cur' s → part ⊆ cur ++ c :: s).
    { intros k cur' Hcur H x Hx. apply (IH _ _ H), elem_of_app in Hx.
      rewrite elem_of_app, elem_of_cons.
      destruct Hx as [[-> | ?]%Hcur%elem_of_cons|?]; auto. }
    destruct skip as [|k].
    + destruct (startswith sep (c :: s)).
      * intros [->|H]%elem_of_cons.
        { intros x Hx. rewrite elem_of_reverse in Hx. apply elem_of_app. by left. }
        apply (Hstep (length sep - 1) []); [|done].
        intros x Hx. by apply not_elem_of_nil in Hx.
      * apply Hstep. by intros x ?.
    + apply Hstep. intros x ?. by right.
Qed.

Lemma split_subseteq (sep s part : str) : part ∈ split sep s → part ⊆ s.
Proof. apply split_aux_subseteq. Qed.

Lemma icons_of_elem (block icon : str) :
  icon ∈ icons_of block → icon ≠ [] ∧ icon ⊆ block.
Proof.
  unfold icons_of. rewrite list_elem_of_filter, list_elem_of_fmap.
  intros [Hne (piece & -> & Hp)]. split; [done|].
  intros x Hx%strip_subseteq. by apply (split_subseteq _ _ _ Hp).
Qed.

(** ** The replacement text *)

Lemma import_line_shape (icon line : str) :
  import_line icon = Ok line →
  ∃ name orig, line = import_from name orig ∧ name ⊆ icon ∧ orig ⊆ icon.
Proof.
  unfold import_line. destruct (contains AS icon).
  - destruct (split AS icon) as [|orig [|alias [|]]] eqn:E; try done.
    intros [= <-]. exists (strip alias), (strip orig). split; [done|].
    split; intros x Hx%strip_subseteq; revert x Hx;
      apply (split_subseteq AS); rewrite E; repeat constructor.
  - intros [= <-]. by exists icon, icon.
Qed.

Lemma for_each_Ok {A B} (f : A → result B) (l : list A) (r : list B) :
  for_each f l = Ok r ↔ Forall2 (λ a b, f a = Ok b) l r.
Proof.
  revert r. induction l as [|a l IH]; intros r; simpl.
  - split; [intros [= <-]; constructor|by inversion 1].
  - destruct (f a) as [b|e] eqn:Ha.
    + rewrite bind_Ok. destruct (for_each f l) as [bs|e] eqn:Hl.
      * rewrite bind_Ok. split.
        { intros [= <-]. constructor; [done|]. by apply IH. }
        inversion 1 as [|?? ? bs' Hb Hbs]; subst.
        apply IH in Hbs as [= ->]. congruence.
      * rewrite bind_Raise. split; [done|].
        inversion 1 as [|?? ? bs' Hb Hbs]; subst. by apply IH in Hbs.
    + rewrite bind_Raise. split; [done|].
      inversion 1; subst. congruence.
Qed.

(** The lines that replace a statement, one per symbol. *)
Lemma replacement_lines (block : str) (r : list (list N)) :
  replacement_of block = Ok r →
  Forall2 (λ icon line, ∃ name orig,
             line = import_from name orig ∧ name ⊆ block ∧ orig ⊆ block)
          (icons_of block) r.
Proof.
  unfold replacement_of. rewrite for_each_Ok.
  intros H. pose proof (λ i, icons_of_elem block i) as Hi.
  induction H as [|icon line icons r Hl H IH]; constructor.
  - apply import_line_shape in Hl as (name & orig & -> & Hn & Ho).
    destruct (Hi icon) as [_ Hsub]; [left|].
    exists name, orig. split; [done|]. split; intros x ?; auto.
  - apply IH. intros i ?. apply Hi. by right.
Qed.

Lemma join_elem (sep : str) (l : list (list N)) (c : N) :
  c ∈ join sep l → c ∈ sep ∨ ∃ x, x ∈ l ∧ c ∈ x.
Proof.
  induction l as [|x l IH]; simpl; [by intros ?%elem_of_nil|].
  destruct l as [|y l].
  - intros ?. right. exists x. split; [left|done].
  - rewrite !elem_of_app. intros [?|[?|H]].
    + right. exists x. split; [left|done].
    + by left.
    + destruct (IH H) as [?|(z & ? & ?)]; [by left|].
      right. exists z. split; [by right|done].
Qed.

Lemma import_from_elem (name orig : str) (c : N) :
  c ∈ import_from name orig → c ∈ name ∨ c ∈ orig ∨ c ∈ template.
Proof.
  assert (Hsub : Forall (λ x, x ∈ template)
                   (py "import " ++ py " from '@tabler/icons-react" ++ py ".mjs';"))
    by (apply (bool_decide_unpack _); by vm_compute).
  rewrite !Forall_app, !Forall_forall in Hsub. destruct Hsub as (H1 & H2 & H3).
  unfold import_from. rewrite !elem_of_app.
  intros [H|[H|[H|[H|H]]]]; auto.
Qed.

Lemma replacement_elem (block : str) (r : list (list N)) (c : N) :
  replacement_of block = Ok r → c ∈ join [LF] r → c ∈ block ∨ c ∈ template.
Proof.
  intros Hr%replacement_lines [Hc|(line & Hl & Hc)]%join_elem.
  - right. apply list_elem_of_singleton in Hc as ->. left.
  - apply (Forall2_Forall_r _ (λ line, ∀ c, c ∈ line → c ∈ block ∨ c ∈ template))
      in Hr.
    + rewrite Forall_forall in Hr. by apply (Hr line).
    + apply Forall_true. intros icon line' (name & orig & -> & Hn & Ho) c'.
      intros [?|[?|?]]%import_from_elem; auto.
Qed.

Lemma join_head (sep x : str) (l : list (list N)) :
  ∃ t, join sep (x :: l) = x ++ t.
Proof.
  destruct l as [|y l]; simpl.
  - exists []. by rewrite app_nil_r.
  - by eexists.
Qed.

Lemma join_last (sep : str) (l : list (list N)) (x : str) :
  ∃ t, join sep (l ++ [x]) = t ++ x.
Proof.
  induction l as [|y l [t IH]].
  - by exists [].
  - cbn [app join]. rewrite IH. destruct (l ++ [x]) eqn:E.
    + by destruct l.
    + exists (y ++ sep ++ t). by rewrite <- !app_assoc.
Qed.

(** A replacement of at least one line starts with [import ] and ends
    with a semicolon. *)
Lemma replacement_ends (block : str) (r : list (list N)) :
  replacement_of block = Ok r → icons_of block ≠ [] →
  (∃ t, join [LF] r = py "import " ++ t) ∧ (∃ t, join [LF] r = t ++ [SEMI]).
Proof.
  intros Hr%replacement_lines Hne.
  assert (Hall : Forall (λ line, ∃ name orig, line = import_from name orig) r).
  { apply (Forall2_Forall_r _ _ _ _ Hr), Forall_true.
    intros _ line (name & orig & -> & _). by exists name, orig. }
  assert (Hr' : r ≠ []).
  { intros ->. apply Forall2_length in Hr. by destruct (icons_of block). }
  clear Hr Hne. split.
  - destruct r as [|line r]; [done|].
    apply Forall_cons in Hall as [(name & orig & ->) _].
    destruct (join_head [LF] (import_from name orig) r) as [t ->].
    unfold import_from. rewrite <- app_assoc. by eexists.
  - destruct r as [|line r _] using rev_ind; [done|].
    apply Forall_app in Hall as [_ [(name & orig & ->) _]%Forall_cons].
    destruct (join_last [LF] r (import_from name orig)) as [t ->].
    unfold import_from. change (py ".mjs';") with (py ".mjs'" ++ [SEMI]).
    rewrite !app_assoc. by eexists.
Qed.

Lemma replacement_no_lbrace (block : str) (r : list (list N)) :
  replacement_of block = Ok r → LBRACE ∉ block → LBRACE ∉ join [LF] r.
Proof.
  intros Hr Hb [H|H]%(replacement_elem _ _ _ Hr); [done|].
  revert H. not_in_literal.
Qed.

Lemma braced_not_elem (block : str) :
  Forall (λ c, not_rbrace c = true) block ↔ RBRACE ∉ block.
Proof.
  rewrite Forall_forall. unfold not_rbrace. split.
  - intros H Hin. by apply H in Hin.
  - intros H c Hc. destruct (N.eqb_spec c RBRACE) as [->|]; done.
Qed.

Lemma replacement_no_rbrace (block : str) (r : list (list N)) :
  replacement_of block = Ok r → RBRACE ∉ block → RBRACE ∉ join [LF] r.
Proof.
  intros Hr Hb [H|H]%(replacement_elem _ _ _ Hr); [done|].
  revert H. not_in_literal.
Qed.

(** ** No match across a replacement *)

(** The head [import ... {] of a match cannot reach into a text free of
    opening braces that holds a semicolon. *)
Lemma head_not_across (p R o ws1 X : str) :
  p ++ R ++ o = py "import" ++ ws1 ++ LBRACE :: X →
  Forall (λ c, isspace c = true) ws1 → LBRACE ∉ R → SEMI ∈ R →
  ∃ u, p = py "import" ++ ws1 ++ LBRACE :: u ∧ X = u ++ R ++ o.
Proof.
  intros E Hws HR Hsemi.
  assert (E' : p ++ (R ++ o) = ((py "import" ++ ws1) ++ [LBRACE]) ++ X)
    by (rewrite E, <- !app_assoc; done).
  apply app_eq_inv in E' as [(k & -> & ->)|(k & Ek & ER)].
  { exists k. by rewrite <- !app_assoc. }
  destruct k as [|c k _] using rev_ind.
  { rewrite app_nil_r in Ek. subst p. exists []. by rewrite <- !app_assoc. }
  rewrite app_assoc in Ek. apply app_inj_tail in Ek as [Ek <-].
  rewrite <- app_assoc in ER.
  apply before_first in ER as (h & -> & _); [|done].
  exfalso. assert (Hin : SEMI ∈ py "import" ++ ws1).
  { rewrite Ek, !elem_of_app. auto. }
  apply elem_of_app in Hin as [Hin|Hin].
  - revert Hin. not_in_literal.
  - rewrite Forall_forall in Hws. by apply Hws in Hin.
Qed.

Lemma statement_clause ws1 block ws2 ws3 q1 pkg q2 :
  statement ws1 block ws2 ws3 q1 pkg q2 =
  py "import" ++ ws1 ++ LBRACE :: block ++ RBRACE :: from_clause ws2 ws3 q1 pkg q2.
Proof. reflexivity. Qed.

(** The letter p occurs in no [from] clause of the package. *)
Lemma from_clause_no_p ws2 ws3 q1 q2 :
  Forall (λ c, isspace c = true) ws2 → Forall (λ c, isspace c = true) ws3 →
  quote q1 = true → quote q2 = true →
  112%N ∉ from_clause ws2 ws3 q1 PACKAGE q2.
Proof.
  intros H2 H3 Hq1 Hq2. unfold from_clause.
  rewrite Forall_forall in H2, H3.
  rewrite !elem_of_app, !elem_of_cons, !elem_of_app.
  intros [H|[H|[H|[H|[H|H]]]]].
  - by apply H2 in H.
  - revert H. not_in_literal.
  - by apply H3 in H.
  - by subst q1.
  - revert H. not_in_literal.
  - apply list_elem_of_singleton in H. by subst q2.
Qed.

(** The [from] clause of a match cannot reach into a text that starts
    with [import ]. *)
Lemma clause_not_across (u R' o ws2 ws3 : str) (q1 q2 : N) (rest : str) :
  u ++ (py "import " ++ R') ++ o = from_clause ws2 ws3 q1 PACKAGE q2 ++ rest →
  Forall (λ c, isspace c = true) ws2 → Forall (λ c, isspace c = true) ws3 →
  quote q1 = true → quote q2 = true →
  ∃ v, u = from_clause ws2 ws3 q1 PACKAGE q2 ++ v.
Proof.
  intros E H2 H3 Hq1 Hq2.
  apply app_eq_inv in E as [(k & -> & _)|(k & Ek & EX)]; [by exists k|].
  destruct k as [|a k].
  { rewrite app_nil_r in Ek. subst u. exists []. by rewrite app_nil_r. }
  exfalso.
  assert (Hlast : last (a :: k) = Some q2).
  { rewrite <- (last_app_cons u), <- Ek. unfold from_clause.
    rewrite !app_assoc, app_comm_cons, !app_assoc. apply last_snoc. }
  change (py "import " ++ R') with (105 :: 109 :: 112 :: py "ort " ++ R')%N in EX.
  destruct k as [|b [|c k]]; simpl in EX.
  - injection EX as <- _. by injection Hlast as <-.
  - injection EX as <- <- _. by injection Hlast as <-.
  - injection EX as <- <- <- _.
    apply (from_clause_no_p ws2 ws3 q1 q2); [done..|].
    rewrite Ek, elem_of_app, !elem_of_cons. auto.
Qed.

Lemma spaces_not_rbrace (ws : str) :
  Forall (λ c, isspace c = true) ws → Forall (λ c, not_rbrace c = true) ws.
Proof.
  intros H. apply (Forall_impl _ _ _ H). intros c Hc. unfold not_rbrace.
  destruct (N.eqb_spec c RBRACE) as [->|]; done.
Qed.

(** Replacing the first match of a text by lines free of opening braces
    lets no match start in front of or inside that replacement, provided
    none starts after it. *)
Lemma splice_keeps_matchless (p m rest g R o : str) :
  matchless p (m ++ rest) →
  match_here (m ++ rest) = Some (length m, g) →
  (∃ t, R = py "import " ++ t) → (∃ t, R = t ++ [SEMI]) → LBRACE ∉ R →
  matchless o [] →
  matchless (p ++ R ++ o) [].
Proof.
  intros Hp Hm [R' HR'] [R0 HR0] Hlb Ho a b E Hb.
  rewrite app_nil_r.
  destruct (match_here b) as [[n g']|] eqn:Hmb; [exfalso|done].
  apply match_here_elim in Hmb
    as (ws1 & ws2 & ws3 & q1 & q2 & rest' & Eb & Hs1 & Hbr & Hs2 & Hs3 &
        Hq1 & Hq2 & _).
  pose proof Hs1 as [_ H1]. pose proof Hbr as [Hg' Hbr'].
  pose proof Hs2 as [_ H2]. pose proof Hs3 as [_ H3].
  (* where [b] starts: in [p], in [R] or in [o] *)
  assert (Hcase : (∃ k, p = a ++ k ∧ k ≠ [] ∧ b = k ++ R ++ o) ∨
                  (∃ k R2, R = k ++ R2 ∧ R2 ≠ [] ∧ b = R2 ++ o) ∨
                  (∃ k, o = k ++ b)).
  { apply app_eq_inv in E as [(k & -> & ->)|(k & -> & E)].
    - destruct k as [|c k].
      + right. destruct R as [|c R].
        * right. by exists [].
        * left. by exists [], (c :: R).
      + left. by exists (c :: k).
    - right. apply app_eq_inv in E as [(k2 & -> & ->)|(k2 & -> & ->)].
      + destruct k2 as [|c k2].
        * right. by exists [].
        * left. by exists k, (c :: k2).
      + right. by exists k2. }
  destruct Hcase as [(k & -> & Hk & ->)|[(k & R2 & -> & HR2 & ->)|(k & ->)]].
  - (* in [p] *)
    rewrite statement_clause, <- !app_assoc, <- !app_comm_cons in Eb.
    rewrite <- app_assoc in Eb.
    apply head_not_across in Eb as (u & -> & Eu); [|done|done|].
    2:{ rewrite HR0, elem_of_app, elem_of_cons. auto. }
    assert (Hgoal : match_here ((py "import" ++ ws1 ++ LBRACE :: u) ++ m ++ rest)
                    ≠ None); [|by apply Hgoal, (Hp a)].
    destruct (decide (RBRACE ∈ u)) as [Hin|Hnin].
    + apply list_elem_of_split_l in Hin as (u1 & u2 & -> & Hu1).
      rewrite <- app_assoc, <- app_comm_cons in Eu.
      apply first_occurrence in Eu as [-> Eu];
        [|by apply braced_not_elem|done].
      rewrite HR' in Eu. symmetry in Eu.
      apply clause_not_across in Eu as [v ->]; [|done..].
      assert (Es : (py "import" ++ ws1 ++ LBRACE :: u1 ++ RBRACE ::
                    from_clause ws2 ws3 q1 PACKAGE q2 ++ v) ++ m ++ rest =
                   statement ws1 u1 ws2 ws3 q1 PACKAGE q2 ++ v ++ m ++ rest).
      { rewrite statement_clause.
        repeat (rewrite <- ?app_assoc, <- ?app_comm_cons). done. }
      rewrite <- !app_assoc, <- !app_comm_cons, <- !app_assoc in Es |- *.
      rewrite Es, match_here_intro; done.
    + apply match_here_elim in Hm
        as (w1 & w2 & w3 & a1 & a2 & rest0 & Em & [_ Hw1] & [_ Hbg] & ? & ? &
            ? & ? & _).
      assert (Es : (py "import" ++ ws1 ++ LBRACE :: u) ++ m ++ rest =
                   statement ws1 (u ++ py "import" ++ w1 ++ LBRACE :: g)
                             w2 w3 a1 PACKAGE a2 ++ rest0).
      { rewrite Em, !statement_clause.
        repeat (rewrite <- ?app_assoc, <- ?app_comm_cons). done. }
      rewrite Es, match_here_intro; try done.
      split; [by destruct u|].
      rewrite !Forall_app, Forall_cons. repeat split; [| | |done].
      * by apply braced_not_elem.
      * vm_compute. by repeat constructor.
      * by apply spaces_not_rbrace.
  - (* in [R] *)
    rewrite statement_clause, <- !app_assoc, <- !app_comm_cons in Eb.
    apply (head_not_across [] R2 o) in Eb as (u & Eu & _); [done|done| |].
    + intros Hin. apply Hlb, elem_of_app. by right.
    + destruct R2 as [|c R2 _] using rev_ind; [done|].
      rewrite app_assoc in HR0. apply app_inj_tail in HR0 as [_ ->].
      rewrite elem_of_app, elem_of_cons. auto.
  - (* in [o] *)
    specialize (Ho k b eq_refl Hb). rewrite app_nil_r, Eb in Ho.
    by rewrite match_here_intro in Ho.
Qed.

(** ** The text of a match *)

(** The matched text is the statement and its semicolon, if any. *)
Lemma match_here_text (m rest : str) g :
  match_here (m ++ rest) = Some (length m, g) →
  ∃ ws1 ws2 ws3 q1 q2 semi,
    m = statement ws1 g ws2 ws3 q1 PACKAGE q2 ++ semi ∧
    (semi = [] ∨ semi = [SEMI]) ∧
    spaces ws1 ∧ braced g ∧ spaces ws2 ∧ spaces ws3 ∧
    quote q1 = true ∧ quote q2 = true.
Proof.
  intros (ws1 & ws2 & ws3 & q1 & q2 & rest0 & E & ? & ? & ? & ? & ? & ? & Hn)
    %match_here_elim.
  exists ws1, ws2, ws3, q1, q2, (take (semicolon rest0) rest0).
  split; [|split; [|done]].
  - rewrite <- (take_app_length m rest), E, Hn. apply take_app_add.
  - destruct rest0 as [|x rest0]; simpl; [by left|].
    destruct (N.eqb_spec x SEMI) as [->|]; [right|left]; done.
Qed.

Lemma rbraces_app (s t : str) : rbraces (s ++ t) = rbraces s + rbraces t.
Proof. unfold rbraces. by rewrite filter_app, length_app. Qed.

Lemma rbraces_0 (s : str) : RBRACE ∉ s → rbraces s = 0.
Proof.
  intros H. unfold rbraces. induction s as [|c s IH]; [done|].
  apply not_elem_of_cons in H as [Hc Hs].
  rewrite filter_cons_False by done. by apply IH.
Qed.

Lemma rbraces_pos (s : str) : RBRACE ∈ s → 0 < rbraces s.
Proof.
  intros (s1 & s2 & ->)%list_elem_of_split.
  rewrite rbraces_app. unfold rbraces at 2.
  rewrite filter_cons_True by done. simpl. lia.
Qed.

Lemma rbraces_statement ws1 block ws2 ws3 q1 pkg q2 :
  0 < rbraces (statement ws1 block ws2 ws3 q1 pkg q2).
Proof.
  apply rbraces_pos. unfold statement.
  rewrite !elem_of_app, elem_of_cons, elem_of_app, elem_of_cons. auto 10.
Qed.

(** Each match of the text costs it a closing brace. *)
Lemma new_content_rbraces (s out : str) :
  new_content_of s = Ok out → rbraces out + length (finditer s) ≤ rbraces s.
Proof.
  revert out. induction s as [s Hs|p m rest g Hp Hm IH] using content_ind;
    intros out.
  - rewrite new_content_none, finditer_none by done. intros [= <-]. simpl. lia.
  - rewrite (new_content_first _ _ _ _ Hp Hm), (finditer_first _ _ _ _ Hp Hm).
    destruct (new_content_of rest) as [o|e]; [|done]. rewrite bind_Ok.
    destruct (replacement_of g) as [r|e] eqn:Hr; [|done]. rewrite bind_Ok.
    intros [= <-]. specialize (IH o eq_refl).
    apply match_here_text in Hm
      as (ws1 & ws2 & ws3 & q1 & q2 & semi & -> & _ & _ & [_ Hg] & _).
    pose proof (rbraces_statement ws1 g ws2 ws3 q1 PACKAGE q2).
    rewrite !rbraces_app, (rbraces_0 (join [LF] r)).
    + cbn [length]. rewrite length_fmap. lia.
    + apply replacement_no_rbrace with g; [done|]. by apply braced_not_elem.
Qed.

(** ** [rewrite_file] in terms of the loop *)

Lemma rewrite_no_match (content : str) :
  finditer content = [] → rewrite_file content = Ok (content, false).
Proof. intros H. unfold rewrite_file. by rewrite H. Qed.

Lemma rewrite_match (content : str) :
  finditer content ≠ [] →
  rewrite_file content = new_content_of content ≫= λ new_content, Ok (new_content, true).
Proof.
  intros H. unfold rewrite_file, new_content_of.
  destruct (finditer content) as [|m ms] eqn:E; [done|]. rewrite <- E.
  pose proof (new_content_rbraces content) as Hle.
  unfold new_content_of in Hle.
  destruct (splice_all (reverse (finditer content)) content) as [out|e]; [|done].
  rewrite !bind_Ok. specialize (Hle out eq_refl). rewrite E in Hle.
  destruct (decide (out ≠ content)) as [|Hout]; [done|].
  apply dec_stable in Hout as ->. simpl in Hle. lia.
Qed.

Lemma rewrite_Ok (content out : str) changed :
  rewrite_file content = Ok (out, changed) →
  new_content_of content = Ok out ∧
  changed = bool_decide (finditer content ≠ []).
Proof.
  destruct (decide (finditer content = [])) as [E|E].
  - rewrite rewrite_no_match by done. intros [= <- <-].
    unfold new_content_of. rewrite E. by rewrite bool_decide_eq_false_2 by auto.
  - rewrite rewrite_match by done.
    destruct (new_content_of content) as [o|e]; [|done].
    rewrite bind_Ok. intros [= <- <-]. by rewrite bool_decide_eq_true_2.
Qed.

(** * The claims *)

(** ** Rewriting twice *)

Lemma new_content_matchless (s out : str) :
  plain_lists s → new_content_of s = Ok out → matchless out [].
Proof.
  unfold plain_lists. revert out.
  induction s as [s Hs|p m rest g Hp Hm IH] using content_ind; intros out.
  - rewrite new_content_none by done. by intros _ [= <-].
  - rewrite (new_content_first _ _ _ _ Hp Hm), (finditer_first _ _ _ _ Hp Hm).
    rewrite Forall_cons, Forall_fmap. simpl. intros [[Hlb Hne] Hrest].
    destruct (new_content_of rest) as [o|e]; [|done]. rewrite bind_Ok.
    destruct (replacement_of g) as [r|e] eqn:Hr; [|done]. rewrite bind_Ok.
    intros [= <-].
    destruct (replacement_ends _ _ Hr Hne) as [Hhead Hlast].
    apply (splice_keeps_matchless p m rest g); try done.
    + by apply (replacement_no_lbrace g).
    + by apply IH.
Qed.

(** C4, as amended: when every symbol list the statements of the content
    hold names at least one symbol and has no opening brace in it, the
    output of the rewrite has no match left, and rewriting it again
    returns it as it is with [changed = false]. *)
Theorem rewrite_idempotent (content out : str) (changed : bool) :
  plain_lists content →
  rewrite_file content = Ok (out, changed) →
  finditer out = [] ∧ rewrite_file out = Ok (out, false).
Proof.
  intros Hplain [Hout _]%rewrite_Ok.
  assert (finditer out = []) as E
    by (by apply finditer_none, (new_content_matchless content)).
  split; [done|]. by apply rewrite_no_match.
Qed.

Lemma rewrite_idempotent_witness :
  let content := py "import { IconHome, IconUser as UserIcon } from '@tabler/icons-react';" in
  let out := py "import IconHome from '@tabler/icons-reactIconHome.mjs';" ++ LF ::
             py "import UserIcon from '@tabler/icons-reactIconUser.mjs';" in
  finditer out = [] ∧ rewrite_file out = Ok (out, false).
Proof.
  intros content out. apply (rewrite_idempotent content out true).
  - unfold plain_lists. vm_compute finditer. repeat constructor.
    + not_in_literal.
    + by vm_compute.
  - by vm_compute.
Defined.

(** C4, as stated, fails: a symbol list with an opening brace in it, and
    a statement with no symbol inside a broken-up [import], both turn
    into a text that the second rewrite changes again. *)
Lemma rewrite_not_idempotent :
  let nested := py "import { import {A } from '@tabler/icons-react'} from '@tabler/icons-react'" in
  let nested1 := py "import import {A from '@tabler/icons-reactimport {A.mjs';} from '@tabler/icons-react'" in
  let nested2 := py "import import A from '@tabler/icons-reactimport {A.mjs'; from '@tabler/icons-reactA from '@tabler/icons-reactimport {A.mjs';.mjs';" in
  let glued := py "imimport { , } from '@tabler/icons-react';port { A } from '@tabler/icons-react';" in
  let glued1 := py "import { A } from '@tabler/icons-react';" in
  let glued2 := py "import A from '@tabler/icons-reactA.mjs';" in
  (rewrite_file nested = Ok (nested1, true) ∧ rewrite_file nested1 = Ok (nested2, true)) ∧
  (rewrite_file glued = Ok (glued1, true) ∧ rewrite_file glued1 = Ok (glued2, true)).
Proof. by vm_compute. Qed.

(** ** Two statements in one content *)

(** C5: in a content with two qualifying statements, [m1] after the text
    [p0] and [m2] after the text [p1], the matches come in increasing
    offsets and do not overlap, so the loop, which runs over them
    reversed, takes the later one first; that turn replaces exactly the
    span of [m2] and leaves everything up to the end of [m1] in place,
    the next turn replaces exactly the span of [m1], and the result holds
    the replacement of each statement where the statement was. *)
Theorem offset_safety (p0 m1 p1 m2 p2 g1 g2 : str) (r1 r2 : list (list N)) :
  matchless p0 (m1 ++ p1 ++ m2 ++ p2) →
  match_here (m1 ++ p1 ++ m2 ++ p2) = Some (length m1, g1) →
  matchless p1 (m2 ++ p2) →
  match_here (m2 ++ p2) = Some (length m2, g2) →
  matchless p2 [] →
  replacement_of g1 = Ok r1 →
  replacement_of g2 = Ok r2 →
  let content := p0 ++ m1 ++ p1 ++ m2 ++ p2 in
  let M1 := mkMatch (length p0) (length p0 + length m1) g1 in
  let M2 := mkMatch (length (p0 ++ m1 ++ p1))
                    (length (p0 ++ m1 ++ p1) + length m2) g2 in
  finditer content = [M1; M2] ∧
  reverse (finditer content) = [M2; M1] ∧
  m_start M1 < m_end M1 ∧ m_end M1 ≤ m_start M2 ∧ m_start M2 < m_end M2 ∧
  m_end M2 ≤ length content ∧
  splice content M2 = Ok (p0 ++ m1 ++ p1 ++ join [LF] r2 ++ p2) ∧
  splice (p0 ++ m1 ++ p1 ++ join [LF] r2 ++ p2) M1 =
    Ok (p0 ++ join [LF] r1 ++ p1 ++ join [LF] r2 ++ p2) ∧
  rewrite_file content = Ok (p0 ++ join [LF] r1 ++ p1 ++ join [LF] r2 ++ p2, true).
Proof.
  intros Hp0 Hm1 Hp1 Hm2 Hp2 Hr1 Hr2 content M1 M2.
  pose proof (match_here_length _ _ _ Hm1) as [? _].
  pose proof (match_here_length _ _ _ Hm2) as [? _].
  assert (Hfind : finditer content = [M1; M2]).
  { unfold content. rewrite (finditer_first _ _ _ _ Hp0 Hm1).
    rewrite (finditer_first _ _ _ _ Hp1 Hm2), (finditer_none _ Hp2).
    unfold M1, M2, shift. simpl. rewrite !length_app. do 3 f_equal; lia. }
  split; [done|]. rewrite Hfind. split; [done|].
  unfold M1, M2, content. cbn [m_start m_end].
  repeat split; try (rewrite ?length_app; lia).
  - unfold splice. cbn [m_start m_end m_group1]. rewrite Hr2, bind_Ok.
    rewrite !(assoc_L (++) p0 m1), !(assoc_L (++) (p0 ++ m1) p1).
    rewrite take_app_length, drop_app_add, drop_app_length.
    by rewrite <- !(assoc_L (++)).
  - unfold splice. cbn [m_start m_end m_group1]. rewrite Hr1, bind_Ok.
    rewrite take_app_length, drop_app_add, drop_app_length. done.
  - rewrite rewrite_match by (fold content; by rewrite Hfind).
    rewrite (new_content_first _ _ _ _ Hp0 Hm1).
    rewrite (new_content_first _ _ _ _ Hp1 Hm2), (new_content_none _ Hp2).
    by rewrite !bind_Ok, Hr2, !bind_Ok, Hr1, !bind_Ok.
Qed.

Lemma offset_safety_witness :
  let content :=
    py "/* icons */ import { A } from '@tabler/icons-react';" ++ LF ::
    py "import { B as C, D } from " ++ DQUOTE :: PACKAGE ++ DQUOTE :: [LF] in
  finditer content = [mkMatch 12 52 (py " A "); mkMatch 53 100 (py " B as C, D ")] ∧
  rewrite_file content =
  Ok (py "/* icons */ import A from '@tabler/icons-reactA.mjs';" ++ LF ::
      py "import C from '@tabler/icons-reactB.mjs';" ++ LF ::
      py "import D from '@tabler/icons-reactD.mjs';" ++ [LF], true).
Proof.
  destruct (offset_safety
              (py "/* icons */ ") (py "import { A } from '@tabler/icons-react';")
              [LF] (py "import { B as C, D } from " ++ DQUOTE :: PACKAGE ++ [DQUOTE])
              [LF] (py " A ") (py " B as C, D ")
              [py "import A from '@tabler/icons-reactA.mjs';"]
              [py "import C from '@tabler/icons-reactB.mjs';";
               py "import D from '@tabler/icons-reactD.mjs';"])
    as (Hfind & _ & _ & _ & _ & _ & _ & _ & Hrewrite).
  - apply matchlessb_sound. by vm_compute.
  - by vm_compute.
  - apply matchlessb_sound. by vm_compute.
  - by vm_compute.
  - apply matchlessb_sound. by vm_compute.
  - by vm_compute.
  - by vm_compute.
  - split; [exact Hfind|exact Hrewrite].
Defined.

(** ** No statement *)

Lemma match_here_qualifying (b : str) : match_here b ≠ None ↔ qualifying b.
Proof.
  split.
  - destruct (match_here b) as [[n g]|] eqn:E; [intros _|done].
    apply match_here_elim in E
      as (ws1 & ws2 & ws3 & q1 & q2 & rest & -> & ? & ? & ? & ? & ? & ? & _).
    by exists ws1, g, ws2, ws3, q1, q2, rest.
  - intros (ws1 & g & ws2 & ws3 & q1 & q2 & rest & -> & ? & ? & ? & ? & ? & ?).
    by rewrite match_here_intro.
Qed.

(** [finditer] finds nothing exactly when no qualifying statement stands
    anywhere in the content. *)
Lemma finditer_nil_iff (content : str) :
  finditer content = [] ↔ ∀ a b, content = a ++ b → ¬ qualifying b.
Proof.
  split.
  - intros Hnil a b -> Hq%match_here_qualifying.
    destruct (first_match (a ++ b)) as [H|(p & m & rest & g & E & Hp & Hm)].
    + destruct b as [|c b]; [done|].
      specialize (H a (c :: b) eq_refl). rewrite app_nil_r in H. by apply Hq, H.
    + rewrite E, (finditer_first _ _ _ _ Hp Hm) in Hnil. done.
  - intros H. apply finditer_none. intros a b -> Hb. rewrite app_nil_r.
    destruct (match_here b) eqn:E; [|done].
    destruct (H a b eq_refl). apply match_here_qualifying. by rewrite E.
Qed.

(** C6: on a content in which [finditer] finds no statement the rewrite
    returns the content as it is with [changed = false], and
    [refactor_icons] returns [False] and leaves every file as it was. *)
Theorem no_match_unchanged (content : str) :
  finditer content = [] →
  rewrite_file content = Ok (content, false) ∧
  ∀ (fs : files) (file_path : str),
    fs !! file_path = Some content → refactor_icons fs file_path = Ok (fs, false).
Proof.
  intros H. pose proof (rewrite_no_match content H) as Hr. split; [done|].
  intros fs file_path Hfs. unfold refactor_icons. by rewrite Hfs, Hr.
Qed.

Lemma no_match_unchanged_witness :
  let content := py "import { useState } from 'react';" ++ LF ::
                 py "import IconHome from '@tabler/icons-react';" in
  rewrite_file content = Ok (content, false) ∧
  ∀ (fs : files) (file_path : str),
    fs !! file_path = Some content → refactor_icons fs file_path = Ok (fs, false).
Proof. intros content. apply no_match_unchanged. by vm_compute. Defined.

(** ** A statement without symbols *)

Lemma lstrip_spaces (s : str) :
  Forall (λ c, isspace c = true) s → lstrip s = [].
Proof. induction 1 as [|c s Hc _ IH]; simpl; [done|]. by rewrite Hc. Qed.

Lemma strip_spaces (s : str) :
  Forall (λ c, isspace c = true) s → strip s = [].
Proof. intros H. unfold strip. by rewrite lstrip_spaces. Qed.

Lemma split_comma_spaces (cur s : str) :
  Forall (λ c, isspace c = true) cur →
  Forall (λ c, isspace c = true ∨ c = COMMA) s →
  Forall (Forall (λ c, isspace c = true)) (split_aux [COMMA] 0 cur s).
Proof.
  intros Hcur Hs. revert cur Hcur.
  induction Hs as [|c s Hc Hs IH]; intros cur Hcur.
  - repeat constructor. by apply Forall_reverse.
  - cbn [split_aux startswith length Nat.sub]. rewrite andb_true_r.
    destruct (N.eqb_spec COMMA c) as [<-|Hne].
    + constructor; [by apply Forall_reverse|]. by apply IH.
    + apply IH. constructor; [|done]. by destruct Hc.
Qed.

(** A brace content of white space and commas names no symbol. *)
Lemma icons_of_empty (block : str) :
  Forall (λ c, isspace c = true ∨ c = COMMA) block → icons_of block = [].
Proof.
  intros H. unfold icons_of, split.
  pose proof (split_comma_spaces [] block (Forall_nil_2 _) H) as Hp.
  induction Hp as [|piece pieces Hpiece _ IH]; [done|].
  rewrite fmap_cons, filter_cons_False; [done|].
  rewrite strip_spaces by done. auto.
Qed.

(** C9: a qualifying statement [m] whose brace content holds only white
    space and commas names no symbol, its replacement has no line, and
    the rewrite deletes the statement from the content, the text before
    it ([p]) and the rewritten text after it ([o]) closing up, and
    returns [changed = true], so that [refactor_icons] writes the file
    and returns [True]. *)
Theorem empty_symbol_list (p m rest g o : str) (changed : bool) :
  matchless p (m ++ rest) →
  match_here (m ++ rest) = Some (length m, g) →
  Forall (λ c, isspace c = true ∨ c = COMMA) g →
  rewrite_file rest = Ok (o, changed) →
  replacement_of g = Ok [] ∧
  rewrite_file (p ++ m ++ rest) = Ok (p ++ o, true) ∧
  ∀ (fs : files) (file_path : str),
    fs !! file_path = Some (p ++ m ++ rest) →
    refactor_icons fs file_path = Ok (<[file_path := p ++ o]> fs, true).
Proof.
  intros Hp Hm Hg [Ho _]%rewrite_Ok.
  assert (Hr : replacement_of g = Ok [])
    by (unfold replacement_of; by rewrite icons_of_empty).
  assert (Hw : rewrite_file (p ++ m ++ rest) = Ok (p ++ o, true)).
  { rewrite rewrite_match by (by rewrite (finditer_first _ _ _ _ Hp Hm)).
    by rewrite (new_content_first _ _ _ _ Hp Hm), Ho, !bind_Ok, Hr, !bind_Ok. }
  repeat split; [done..|].
  intros fs file_path Hfs. unfold refactor_icons. by rewrite Hfs, Hw.
Qed.

Lemma empty_symbol_list_witness :
  let content := py "import { , } from '@tabler/icons-react';" ++ LF ::
                 py "const x = 1;" in
  rewrite_file content = Ok (LF :: py "const x = 1;", true).
Proof.
  intros content.
  apply (empty_symbol_list [] (py "import { , } from '@tabler/icons-react';")
           (LF :: py "const x = 1;") (py " , ") (LF :: py "const x = 1;") false).
  - apply matchlessb_sound. by vm_compute.
  - by vm_compute.
  - repeat first [apply Forall_nil_2
                 |apply Forall_cons_2; [first [by left|by right]|]].
  - by vm_compute.
Defined.

(** ** The statements that are recognized *)

Lemma quote_not_space (q : N) : quote q = true → isspace q = false.
Proof. by intros [->%N.eqb_eq| ->%N.eqb_eq]%orb_prop. Qed.

(** Two [from] clauses that start the same text name the same package. *)
Lemma from_clause_inj ws2 ws3 q1 (pkg : str) q2 (semi : str)
      w2 w3 a1 a2 (rest : str) :
  from_clause ws2 ws3 q1 pkg q2 ++ semi =
  from_clause w2 w3 a1 PACKAGE a2 ++ rest →
  Forall (λ c, isspace c = true) ws2 → Forall (λ c, isspace c = true) ws3 →
  Forall (λ c, isspace c = true) w2 → Forall (λ c, isspace c = true) w3 →
  quote q1 = true → quote q2 = true → quote a1 = true → quote a2 = true →
  Forall (λ c, quote c = false) pkg →
  pkg = PACKAGE.
Proof.
  intros E H2 H3 Hw2 Hw3 Hq1 Hq2 Ha1 Ha2 Hpkg.
  unfold from_clause in E.
  repeat (rewrite <- ?app_assoc, <- ?app_comm_cons in E).
  change (py "from") with (102 :: py "rom")%N in E.
  rewrite <- !app_comm_cons in E.
  apply (run_unique isspace) in E as (_ & _ & E); [|done..].
  apply app_inv_head in E.
  apply (run_unique isspace) in E as (_ & _ & E);
    [|done|done|by apply quote_not_space..].
  apply (run_unique (λ c, negb (quote c))) in E as (E & _); [done| | |..].
  - apply (Forall_impl _ _ _ Hpkg). by intros c ->.
  - vm_compute. by repeat constructor.
  - by rewrite Hq2.
  - by rewrite Ha2.
Qed.

(** A statement that names another package holds no match. *)
Lemma other_package_matchless ws1 syms ws2 ws3 q1 (pkg : str) q2 (semi : str) :
  Forall (λ c, isspace c = true) ws1 → Forall (λ c, not_rbrace c = true) syms →
  Forall (λ c, isspace c = true) ws2 → Forall (λ c, isspace c = true) ws3 →
  quote q1 = true → quote q2 = true →
  Forall (λ c, quote c = false) pkg →
  semi = [] ∨ semi = [SEMI] →
  pkg ≠ PACKAGE →
  matchless (statement ws1 syms ws2 ws3 q1 pkg q2 ++ semi) [].
Proof.
  intros H1 Hsyms H2 H3 Hq1 Hq2 Hpkg Hsemi Hne a b E _. rewrite app_nil_r.
  destruct (match_here b) as [[n g]|] eqn:Hb; [exfalso|done].
  apply match_here_elim in Hb
    as (w1 & w2 & w3 & a1 & a2 & rest & -> & [_ Hw1] & [_ Hg] & [_ Hw2] &
        [_ Hw3] & Ha1 & Ha2 & _).
  apply Hne. clear Hne.
  rewrite !statement_clause in E.
  repeat (rewrite <- ?app_assoc, <- ?app_comm_cons in E).
  (* the closing brace of the match is that of the statement, or lies in
     the package literal *)
  assert (E' : (py "import" ++ ws1 ++ LBRACE :: syms) ++
               RBRACE :: from_clause ws2 ws3 q1 pkg q2 ++ semi =
               (a ++ py "import" ++ w1 ++ LBRACE :: g) ++
               RBRACE :: from_clause w2 w3 a1 PACKAGE a2 ++ rest).
  { repeat (rewrite <- ?app_assoc, <- ?app_comm_cons). done. }
  clear E. apply before_first in E' as (h & _ & E).
  2:{ rewrite !elem_of_app, elem_of_cons.
      intros [H|[H|[H|H]]]; [| |done|].
      - revert H. not_in_literal.
      - by apply (braced_not_elem ws1); [apply spaces_not_rbrace|].
      - by apply (braced_not_elem syms). }
  destruct h as [|c h]; simpl in E.
  - injection E as E. by apply from_clause_inj in E.
  - injection E as <- E. exfalso.
    unfold from_clause in E at 1.
    assert (E' : (ws2 ++ py "from" ++ ws3 ++ [q1]) ++ pkg ++ q2 :: semi =
                 h ++ RBRACE :: from_clause w2 w3 a1 PACKAGE a2 ++ rest).
    { rewrite <- E. repeat (rewrite <- ?app_assoc, <- ?app_comm_cons). done. }
    clear E. apply before_first in E' as (h2 & _ & E).
    2:{ rewrite !elem_of_app, list_elem_of_singleton.
        intros [H|[H|[H|H]]].
        - by apply (braced_not_elem ws2); [apply spaces_not_rbrace|].
        - revert H. not_in_literal.
        - by apply (braced_not_elem ws3); [apply spaces_not_rbrace|].
        - by subst q1. }
    apply app_eq_inv in E as [(k & -> & E)|(k & _ & E)].
    + (* the brace lies in the package literal *)
      apply Forall_app in Hpkg as [_ Hk].
      destruct k as [|c k]; simpl in E.
      * injection E as <- _. done.
      * injection E as _ E. apply Forall_cons in Hk as [_ Hk].
        unfold from_clause in E.
        assert (E' : k ++ q2 :: semi =
                     (w2 ++ py "from" ++ w3) ++ a1 :: PACKAGE ++ a2 :: rest).
        { rewrite <- E. repeat (rewrite <- ?app_assoc, <- ?app_comm_cons). done. }
        apply (run_unique (λ c, negb (quote c))) in E' as (_ & _ & E').
        -- apply (f_equal length) in E'. rewrite length_app in E'.
           destruct Hsemi as [-> | ->]; simpl in E'; lia.
        -- apply (Forall_impl _ _ _ Hk). by intros x ->.
        -- rewrite !Forall_app. repeat split.
           ++ apply (Forall_impl _ _ _ Hw2). intros x Hx.
              destruct (quote x) eqn:Hq; [|done].
              apply quote_not_space in Hq. congruence.
           ++ vm_compute. by repeat constructor.
           ++ apply (Forall_impl _ _ _ Hw3). intros x Hx.
              destruct (quote x) eqn:Hq; [|done].
              apply quote_not_space in Hq. congruence.
        -- by rewrite Hq2.
        -- by rewrite Ha1.
    + (* the brace lies after the package literal *)
      assert (Hin : RBRACE ∈ q2 :: semi)
        by (rewrite E, elem_of_app, elem_of_cons; auto).
      apply elem_of_cons in Hin as [<-|Hin]; [done|].
      destruct Hsemi as [-> | ->]; revert Hin; not_in_literal.
Qed.

(** C7, as amended: take a statement with white space after [import],
    after the closing brace and after [from], with a non-empty brace
    content, with either quote at either end of the package literal, the
    literal itself free of quotes, and with or without the semicolon.
    When the literal is the icon package the whole statement is the one
    match, from offset 0 to the end of the text, with the brace content
    as group 1, whatever the quotes, the white space and the semicolon
    are; when the literal is anything else nothing is matched. *)
Theorem matching_tolerance ws1 syms ws2 ws3 q1 (pkg : str) q2 (semi : bool) :
  spaces ws1 → braced syms → spaces ws2 → spaces ws3 →
  quote q1 = true → quote q2 = true →
  Forall (λ c, quote c = false) pkg →
  let text := statement ws1 syms ws2 ws3 q1 pkg q2 ++ (if semi then [SEMI] else []) in
  (pkg = PACKAGE → finditer text = [mkMatch 0 (length text) syms]) ∧
  (pkg ≠ PACKAGE → finditer text = []).
Proof.
  intros Hs1 Hsyms Hs2 Hs3 Hq1 Hq2 Hpkg text. split.
  - intros ->.
    assert (Hm : match_here (text ++ []) = Some (length text, syms)).
    { rewrite app_nil_r. unfold text. rewrite match_here_intro by done.
      rewrite length_app. by destruct semi. }
    rewrite <- (app_nil_r text) at 1.
    change (finditer ([] ++ text ++ []) = [mkMatch 0 (length text) syms]).
    rewrite (finditer_first [] text [] syms); [done| |done].
    intros a b E. by destruct a, b.
  - intros Hne. apply finditer_none.
    destruct Hs1 as [_ ?], Hsyms as [_ ?], Hs2 as [_ ?], Hs3 as [_ ?].
    apply other_package_matchless; try done. destruct semi; auto.
Qed.

Lemma matching_tolerance_witness :
  finditer (py "import" ++ LF :: py "{ IconHome," ++ LF :: py "  IconUser" ++
            LF :: py "} from " ++ DQUOTE :: PACKAGE ++ [DQUOTE]) =
  [mkMatch 0 58 (py " IconHome," ++ LF :: py "  IconUser" ++ [LF])] ∧
  finditer (py "import { useState } from 'react';") = [].
Proof.
  assert (Hsp : spaces (py " "))
    by (by split; [|vm_compute; repeat constructor]).
  assert (Hlf : spaces [LF])
    by (by split; [|vm_compute; repeat constructor]).
  assert (Hb1 : braced (py " IconHome," ++ LF :: py "  IconUser" ++ [LF]))
    by (by split; [|vm_compute; repeat constructor]).
  assert (Hb2 : braced (py " useState "))
    by (by split; [|vm_compute; repeat constructor]).
  assert (Hp1 : Forall (λ c, quote c = false) PACKAGE)
    by (vm_compute; by repeat constructor).
  assert (Hp2 : Forall (λ c, quote c = false) (py "react"))
    by (vm_compute; by repeat constructor).
  split.
  - exact (proj1 (matching_tolerance _ _ _ _ DQUOTE PACKAGE DQUOTE false
                    Hlf Hb1 Hsp Hsp eq_refl eq_refl Hp1) eq_refl).
  - apply (proj2 (matching_tolerance _ _ _ _ SQUOTE (py "react") SQUOTE true
                    Hsp Hb2 Hsp Hsp eq_refl eq_refl Hp2)).
    by vm_compute.
Defined.

(** C7, as stated, fails: statements that name the icon package are not
    recognized when the braces are empty or when no white space follows
    [import] or [from], and a statement whose package literal is longer
    is recognized when the literal goes on with a quote of the other
    kind. *)
Lemma matching_not_by_package_alone :
  finditer (py "import {} from '@tabler/icons-react';") = [] ∧
  finditer (py "import{ IconHome } from '@tabler/icons-react';") = [] ∧
  finditer (py "import { IconHome } from'@tabler/icons-react';") = [] ∧
  finditer (py "import { IconHome } from '@tabler/icons-react" ++ DQUOTE ::
            py "x';") =
  [mkMatch 0 46 (py " IconHome ")].
Proof. by vm_compute. Qed.

(** ** [strip], [split] and [join] *)

Lemma lstrip_spec (s : str) :
  ∃ u, s = u ++ lstrip s ∧ Forall (λ c, isspace c = true) u.
Proof.
  induction s as [|c s (u & E & Hu)]; simpl.
  - by exists [].
  - destruct (isspace c) eqn:Hc.
    + exists (c :: u). split; [by rewrite E at 1|by constructor].
    + by exists [].
Qed.

Lemma lstrip_head (s : str) :
  lstrip s = [] ∨ ∃ c t, lstrip s = c :: t ∧ isspace c = false.
Proof.
  induction s as [|c s IH]; simpl; [by left|].
  destruct (isspace c) eqn:Hc; [done|]. right. by exists c, s.
Qed.

Lemma rstrip_spec (s : str) :
  ∃ u, s = rstrip s ++ u ∧ Forall (λ c, isspace c = true) u.
Proof.
  unfold rstrip. destruct (lstrip_spec (reverse s)) as (u & E & Hu).
  exists (reverse u). split; [|by apply Forall_reverse].
  by rewrite <- reverse_app, <- E, reverse_involutive.
Qed.

Lemma rstrip_last (s : str) :
  rstrip s = [] ∨ ∃ t c, rstrip s = t ++ [c] ∧ isspace c = false.
Proof.
  unfold rstrip. destruct (lstrip_head (reverse s)) as [->|(c & t & -> & Hc)].
  - by left.
  - right. exists (reverse t), c. by rewrite reverse_cons.
Qed.

(** What [strip] leaves starts and ends with a character that is no
    white space. *)
Lemma strip_ends (s : str) :
  strip s ≠ [] →
  (∃ c t, strip s = c :: t ∧ isspace c = false) ∧
  (∃ t c, strip s = t ++ [c] ∧ isspace c = false).
Proof.
  intros Hne. unfold strip in *. split.
  - destruct (rstrip_spec (lstrip s)) as (u & E & _).
    remember (rstrip (lstrip s)) as r eqn:Er. clear Er.
    destruct (lstrip_head s) as [E0|(c & t & E0 & Hc)]; rewrite E0 in E.
    + by destruct r.
    + destruct r as [|c' t']; [done|]. injection E as <- _. by exists c, t'.
  - by destruct (rstrip_last (lstrip s)).
Qed.

Lemma strip_nil (s : str) :
  strip s = [] → Forall (λ c, isspace c = true) s.
Proof.
  unfold strip. intros E.
  destruct (rstrip_spec (lstrip s)) as (v & Ev & Hv). rewrite E in Ev.
  destruct (lstrip_spec s) as (u & Eu & Hu). rewrite Eu.
  apply Forall_app. split; [done|]. by rewrite Ev.
Qed.

Lemma split_aux_skip (sep : str) (cur t s : str) :
  split_aux sep (length t) cur (t ++ s) = split_aux sep 0 cur s.
Proof.
  induction t as [|c t IH]; [done|]. simpl. apply IH.
Qed.

Lemma split_aux_not_nil (sep : str) skip (cur s : str) :
  split_aux sep skip cur s ≠ [].
Proof.
  revert skip cur. induction s as [|c s IH]; intros skip cur; simpl; [done|].
  destruct skip; [|done]. by destruct (startswith sep (c :: s)).
Qed.

Lemma join_cons (sep x : str) (l : list (list N)) :
  l ≠ [] → join sep (x :: l) = x ++ sep ++ join sep l.
Proof. by destruct l. Qed.

(** Joining the pieces of a split with the separator gives the text
    back. *)
Lemma split_aux_join (sep : str) (cur s : str) :
  sep ≠ [] → join sep (split_aux sep 0 cur s) = reverse cur ++ s.
Proof.
  intros Hsep. remember (length s) as n eqn:Hn. revert cur s Hn.
  induction (lt_wf n) as [n _ IH]. intros cur s ->.
  destruct s as [|c s]; [by rewrite app_nil_r|].
  cbn [split_aux]. destruct (startswith sep (c :: s)) eqn:Hst.
  - apply startswith_inv in Hst as [s' E].
    destruct sep as [|c' sep']; [done|]. injection E as <- ->.
    replace (length (c :: sep') - 1) with (length sep') by (simpl; lia).
    rewrite split_aux_skip, join_cons by apply split_aux_not_nil.
    rewrite (IH (length s')); [done| |done].
    simpl. rewrite !length_app. lia.
  - rewrite (IH (length s)); [|simpl; lia|done].
    by rewrite reverse_cons, <- app_assoc.
Qed.

Lemma join_split (sep s : str) : sep ≠ [] → join sep (split sep s) = s.
Proof. intros H. unfold split. by rewrite split_aux_join. Qed.

(** Splitting on commas, piece by piece. *)
Lemma split_comma_piece (cur p : str) :
  COMMA ∉ p → split_aux [COMMA] 0 cur p = [reverse cur ++ p].
Proof.
  revert cur. induction p as [|c p IH]; intros cur Hp.
  - by rewrite app_nil_r.
  - cbn [split_aux startswith]. rewrite andb_true_r.
    apply not_elem_of_cons in Hp as [Hc Hp].
    destruct (N.eqb_spec COMMA c) as [<-|_]; [done|].
    rewrite IH by done. by rewrite reverse_cons, <- app_assoc.
Qed.

Lemma split_comma_app (cur p s : str) :
  COMMA ∉ p →
  split_aux [COMMA] 0 cur (p ++ COMMA :: s) =
  (reverse cur ++ p) :: split_aux [COMMA] 0 [] s.
Proof.
  revert cur. induction p as [|c p IH]; intros cur Hp.
  - cbn [app split_aux startswith length Nat.sub].
    by rewrite N.eqb_refl, app_nil_r.
  - cbn [app split_aux startswith]. rewrite andb_true_r.
    apply not_elem_of_cons in Hp as [Hc Hp].
    destruct (N.eqb_spec COMMA c) as [<-|_]; [done|].
    rewrite IH by done. by rewrite reverse_cons, <- app_assoc.
Qed.

Lemma split_join_comma (pieces : list (list N)) :
  pieces ≠ [] → Forall (λ p, COMMA ∉ p) pieces →
  split [COMMA] (join [COMMA] pieces) = pieces.
Proof.
  intros Hne Hp. unfold split.
  induction Hp as [|p pieces Hp Hps IH]; [done|].
  destruct pieces as [|p' pieces].
  - by apply split_comma_piece.
  - rewrite join_cons by done. cbn [app].
    rewrite split_comma_app by done. by rewrite IH.
Qed.

Lemma split_comma_snoc (cur block ws : str) :
  COMMA ∉ ws →
  split_aux [COMMA] 0 cur (block ++ COMMA :: ws) =
  split_aux [COMMA] 0 cur block ++ [ws].
Proof.
  intros Hws. revert cur. induction block as [|c block IH]; intros cur.
  - cbn [app split_aux startswith length Nat.sub].
    by rewrite N.eqb_refl, split_comma_piece.
  - cbn [app split_aux startswith length Nat.sub]. rewrite andb_true_r.
    destruct (N.eqb_spec COMMA c) as [<-|_]; by rewrite IH.
Qed.

(** A comma and white space after the last symbol add no symbol. *)
Lemma icons_of_trailing (block ws : str) :
  Forall (λ c, isspace c = true) ws →
  icons_of (block ++ COMMA :: ws) = icons_of block.
Proof.
  intros Hws. unfold icons_of, split. rewrite split_comma_snoc.
  - rewrite fmap_app, filter_app. cbn [fmap list_fmap].
    rewrite filter_cons_False, filter_nil, app_nil_r; [done|].
    rewrite strip_spaces by done. auto.
  - intros Hin. rewrite Forall_forall in Hws. by apply Hws in Hin.
Qed.

Lemma icons_of_ends (block icon : str) :
  icon ∈ icons_of block →
  (∃ c t, icon = c :: t ∧ isspace c = false) ∧
  (∃ t c, icon = t ++ [c] ∧ isspace c = false).
Proof.
  unfold icons_of. rewrite list_elem_of_filter, list_elem_of_fmap.
  intros [Hne (piece & -> & _)]. by apply strip_ends.
Qed.

(** The line of a symbol that starts and ends with a character that is no
    white space binds a name and names a file, neither of them empty. *)
Lemma import_line_names (icon line : str) :
  (∃ c t, icon = c :: t ∧ isspace c = false) →
  (∃ t c, icon = t ++ [c] ∧ isspace c = false) →
  import_line icon = Ok line →
  ∃ name orig, name ≠ [] ∧ orig ≠ [] ∧ line = import_from name orig.
Proof.
  intros (c & t & Eh & Hc) (t' & c' & El & Hc'). unfold import_line.
  destruct (contains AS icon).
  - destruct (split AS icon) as [|orig [|alias [|]]] eqn:E; try done.
    intros [= <-]. exists (strip alias), (strip orig).
    assert (Ej : icon = orig ++ AS ++ alias).
    { rewrite <- (join_split AS icon), E; done. }
    split; [|split; [|done]].
    + intros Ha%strip_nil.
      destruct alias as [|x alias _] using rev_ind.
      * rewrite app_nil_r in Ej. rewrite Ej in El.
        change AS with (py " as" ++ [32%N]) in El.
        rewrite !app_assoc in El. apply app_inj_tail in El as [_ <-]. done.
      * rewrite Ej, !app_assoc in El. apply app_inj_tail in El as [_ <-].
        apply Forall_app in Ha as [_ [Hx _]%Forall_cons]. congruence.
    + intros Ho%strip_nil. destruct orig as [|x orig].
      * rewrite Ej in Eh. injection Eh as <- _. done.
      * rewrite Ej in Eh. injection Eh as <- _.
        apply Forall_cons in Ho as [Hx _]. congruence.
  - intros [= <-]. exists icon, icon. by rewrite Eh.
Qed.

(** ** A comma after the last symbol *)

(** C8: a brace content is split at its commas, each piece is stripped
    and the empty ones are dropped; so a comma after the last symbol,
    with any white space behind it, adds no symbol and no line, and every
    line of the replacement binds a name that is not empty to a file name
    that is not empty. *)
Theorem trailing_comma_tolerance (pieces : list (list N)) (ws : str) :
  pieces ≠ [] →
  Forall (λ p, COMMA ∉ p) pieces →
  Forall (λ c, isspace c = true) ws →
  let block := join [COMMA] pieces in
  let trailing := block ++ COMMA :: ws in
  icons_of block = filter (λ i, i ≠ []) (strip <$> pieces) ∧
  icons_of trailing = icons_of block ∧
  replacement_of trailing = replacement_of block ∧
  ∀ r, replacement_of trailing = Ok r →
       length r = length (icons_of block) ∧
       Forall (λ line, ∃ name orig,
                 name ≠ [] ∧ orig ≠ [] ∧ line = import_from name orig) r.
Proof.
  intros Hne Hp Hws block trailing.
  assert (Ht : icons_of trailing = icons_of block)
    by (by apply icons_of_trailing).
  split; [|split; [done|split]].
  - unfold icons_of, block. by rewrite split_join_comma.
  - unfold replacement_of. by rewrite Ht.
  - unfold replacement_of. rewrite Ht. intros r Hr%for_each_Ok.
    split; [symmetry; by apply (Forall2_length _ _ _ Hr)|].
    apply (Forall2_Forall_r _ _ _ _ Hr). apply Forall_forall.
    intros icon [Hhead Hlast]%icons_of_ends line.
    by apply import_line_names.
Qed.

Lemma trailing_comma_tolerance_witness :
  icons_of (py " IconHome, IconUser as UserIcon," ++ [LF]) =
  [py "IconHome"; py "IconUser as UserIcon"] ∧
  replacement_of (py " IconHome, IconUser as UserIcon," ++ [LF]) =
  replacement_of (py " IconHome, IconUser as UserIcon").
Proof.
  destruct (trailing_comma_tolerance
              [py " IconHome"; py " IconUser as UserIcon"] [LF])
    as (H1 & H2 & H3 & _).
  - done.
  - repeat constructor; not_in_literal.
  - vm_compute. by repeat constructor.
  - split; [|exact H3]. etransitivity; [exact H2|]. etransitivity; [exact H1|].
    by vm_compute.
Defined.

(** ** The driver *)

Lemma for_state_app {A S} (body : S → A → result S) (l1 l2 : list A) (st : S) :
  for_state body (l1 ++ l2) st = for_state body l1 st ≫= for_state body l2.
Proof.
  revert st. induction l1 as [|a l1 IH]; intros st; [done|].
  cbn [app for_state]. destruct (body st a) as [st'|e]; [|done].
  rewrite !bind_Ok. apply IH.
Qed.

(** A file without the extension is passed over; one with it is handed to
    [refactor_icons] under its joined path. *)
Lemma visit_file_unfold (root : str) (st : state) (file : str) :
  visit_file root st file =
  if has_extension file then process st (os_path_join root file) else Ok st.
Proof. reflexivity. Qed.

Lemma for_state_visit (root : str) (fs : list (list N)) (st : state) :
  for_state (visit_file root) fs st =
  for_state process
    (os_path_join root <$> filter (λ f, has_extension f = true) fs) st.
Proof.
  revert st. induction fs as [|file fs IH]; intros st; [done|].
  cbn [for_state]. rewrite visit_file_unfold.
  destruct (has_extension file) eqn:Hext.
  - rewrite filter_cons_True by done. rewrite fmap_cons. cbn [for_state].
    destruct (process st (os_path_join root file)) as [st'|e]; [|done].
    rewrite !bind_Ok. apply IH.
  - rewrite filter_cons_False by (by rewrite Hext). rewrite bind_Ok. apply IH.
Qed.

Lemma for_state_walk walk (st : state) :
  for_state (λ st entry, for_state (visit_file entry.1.1) entry.2 st) walk st =
  for_state process (candidates walk) st.
Proof.
  revert st. induction walk as [|entry walk IH]; intros st; [done|].
  cbn [for_state candidates]. rewrite for_state_app, for_state_visit.
  destruct (for_state process _ st) as [st'|e]; [|done].
  rewrite !bind_Ok. apply IH.
Qed.

Lemma filter_modifies_ext (fs fs' : files) (paths : list (list N)) :
  (∀ p, p ∈ paths → fs' !! p = fs !! p) →
  filter (λ p, modifies fs' p = true) paths =
  filter (λ p, modifies fs p = true) paths.
Proof.
  induction paths as [|p paths IH]; intros H; [done|].
  assert (E : modifies fs' p = modifies fs p)
    by (unfold modifies; by rewrite (H p) by left).
  rewrite !filter_cons, E, IH; [done|].
  intros q Hq. apply H. by right.
Qed.

Lemma rewrite_unchanged (content new : str) :
  rewrite_file content = Ok (new, false) → new = content.
Proof.
  intros H. pose proof (rewrite_Ok _ _ _ H) as [_ Hch].
  symmetry in Hch. apply bool_decide_eq_false in Hch.
  apply dec_stable in Hch. rewrite (rewrite_no_match _ Hch) in H. congruence.
Qed.

(** The loop over the candidate paths, each of them visited once. *)
Lemma for_state_process (paths : list (list N)) (st : state) :
  NoDup paths →
  (∀ path, path ∈ paths →
     ∃ content r, st_files st !! path = Some content ∧ rewrite_file content = Ok r) →
  ∃ st',
    for_state process paths st = Ok st' ∧
    st_stdout st' =
      st_stdout st ++
      (refactored <$> filter (λ p, modifies (st_files st) p = true) paths) ∧
    st_count st' =
      st_count st + length (filter (λ p, modifies (st_files st) p = true) paths) ∧
    (∀ path, path ∉ paths → st_files st' !! path = st_files st !! path) ∧
    (∀ path content, path ∈ paths → st_files st !! path = Some content →
       ∃ new changed, rewrite_file content = Ok (new, changed) ∧
                      st_files st' !! path = Some new).
Proof.
  intros Hnd. revert st. induction Hnd as [|path paths Hnin Hnd IH]; intros st Hok.
  - exists st. cbn [for_state filter list_filter fmap list_fmap length].
    rewrite app_nil_r, Nat.add_0_r. repeat split; try done.
    intros ?? []%elem_of_nil.
  - destruct (Hok path) as (content & [new changed] & Hfs & Hrw); [left|].
    pose proof (rewrite_Ok _ _ _ Hrw) as [_ Hch].
    set (fs1 := if changed then <[path := new]> (st_files st) else st_files st).
    set (st1 := if changed
                then mkState fs1 (st_stdout st ++ [refactored path]) (st_count st + 1)
                else mkState fs1 (st_stdout st) (st_count st)).
    assert (Hp : process st path = Ok st1).
    { unfold process, refactor_icons. rewrite Hfs, Hrw.
      unfold st1, fs1. by destruct changed. }
    assert (Hfs1 : st_files st1 = fs1) by (unfold st1; by destruct changed).
    assert (Hother : ∀ p, p ≠ path → fs1 !! p = st_files st !! p).
    { intros p Hne. unfold fs1. destruct changed; [|done].
      by rewrite lookup_insert_ne. }
    assert (Hpaths : ∀ p, p ∈ paths → fs1 !! p = st_files st !! p).
    { intros p Hin. apply Hother. by intros ->. }
    assert (Hmod : modifies (st_files st) path = changed)
      by (unfold modifies; by rewrite Hfs).
    destruct (IH st1) as (st' & Hrun & Hout & Hcount & Hout_files & Hin_files).
    { intros p Hin. rewrite Hfs1, (Hpaths p Hin). apply Hok. by right. }
    rewrite Hfs1, (filter_modifies_ext (st_files st) fs1 paths Hpaths)
      in Hout, Hcount.
    exists st'. split; [|split; [|split; [|split]]].
    + cbn [for_state]. by rewrite Hp, bind_Ok.
    + rewrite Hout, filter_cons, Hmod. unfold st1.
      destruct changed; cbn [st_stdout]; [|done].
      rewrite decide_True by done. by rewrite fmap_cons, <- app_assoc.
    + rewrite Hcount, filter_cons, Hmod. unfold st1.
      destruct changed; cbn [st_count]; [|done].
      rewrite decide_True by done. cbn [length]. lia.
    + intros p [Hne Hnin']%not_elem_of_cons.
      by rewrite (Hout_files p Hnin'), Hfs1, (Hother p Hne).
    + intros p c [->|Hin]%elem_of_cons Hc.
      * rewrite Hfs in Hc. injection Hc as <-. exists new, changed.
        split; [done|]. rewrite (Hout_files path Hnin), Hfs1. unfold fs1.
        destruct changed; [by rewrite lookup_insert_eq|].
        by rewrite (rewrite_unchanged _ _ Hrw).
      * apply (Hin_files p c Hin). by rewrite Hfs1, (Hpaths p Hin).
Qed.

(** C10: the driver hands to [refactor_icons] exactly the files whose
    name ends in [.tsx] or [.ts], under their joined paths, and no other
    file is read or written.  When each of these paths names a file the
    rewrite of which raises nothing, and no path comes twice, the driver
    ends; it has printed one line [Refactored <path>] for each file in
    which a statement was found, in the order of the walk, and then the
    line [Total refactored: <count>], where the count is the number of
    those files; these files hold their rewritten text. *)
Theorem driver_report (walk : list (list N * list (list N) * list (list N)))
        (fs : files) :
  NoDup (candidates walk) →
  (∀ path, path ∈ candidates walk →
     ∃ content r, fs !! path = Some content ∧ rewrite_file content = Ok r) →
  let modified := filter (λ p, modifies fs p = true) (candidates walk) in
  ∃ st,
    main walk fs = Ok st ∧
    st_stdout st =
      (refactored <$> modified) ++
      [py "Total refactored: " ++ str_of_nat (length modified)] ∧
    st_count st = length modified ∧
    (∀ path, path ∉ candidates walk → st_files st !! path = fs !! path) ∧
    (∀ path content, path ∈ candidates walk → fs !! path = Some content →
       ∃ new changed, rewrite_file content = Ok (new, changed) ∧
                      changed = modifies fs path ∧
                      st_files st !! path = Some new).
Proof.
  intros Hnd Hok modified.
  destruct (for_state_process (candidates walk) (mkState fs [] 0) Hnd Hok)
    as (st & Hrun & Hout & Hcount & Hout_files & Hin_files).
  cbn [st_files st_stdout st_count] in *.
  eexists. split; [|split; [|split; [|split]]].
  - unfold main. by rewrite for_state_walk, Hrun, bind_Ok.
  - cbn [st_stdout]. by rewrite Hout, Hcount.
  - done.
  - done.
  - intros path content Hin Hfs.
    destruct (Hin_files path content Hin Hfs) as (new & changed & Hrw & Hnew).
    exists new, changed. split; [done|]. split; [|done].
    unfold modifies. rewrite Hfs. by apply rewrite_Ok in Hrw as [_ ->].
Qed.

Lemma driver_report_witness :
  let walk :=
    [(py "ui/src", [py "components"], [py "App.tsx"; py "util.ts"; py "README.md"]);
     (py "ui/src/components", [], [py "Nav.tsx"])] in
  let fs : files :=
    <[py "ui/src/App.tsx" := py "import { IconHome } from '@tabler/icons-react';"]>
    (<[py "ui/src/util.ts" := py "export const n = 1;"]>
    (<[py "ui/src/components/Nav.tsx" :=
         py "import { IconUser as U } from '@tabler/icons-react'"]> ∅)) in
  ∃ st,
    main walk fs = Ok st ∧
    st_stdout st =
      [py "Refactored ui/src/App.tsx"; py "Refactored ui/src/components/Nav.tsx";
       py "Total refactored: 2"] ∧
    st_count st = 2 ∧
    st_files st !! py "ui/src/App.tsx" =
      Some (py "import IconHome from '@tabler/icons-reactIconHome.mjs';").
Proof.
  intros walk fs.
  destruct (driver_report walk fs) as (st & Hmain & Hout & Hcount & _ & Hin).
  - apply (bool_decide_unpack _). by vm_compute.
  - intros path Hp. vm_compute candidates in Hp.
    rewrite !elem_of_cons in Hp.
    destruct Hp as [->|[->|[->|[]%elem_of_nil]]];
      eexists _, _; split; vm_compute; reflexivity.
  - exists st. split; [done|]. split; [|split].
    + rewrite Hout. by vm_compute.
    + rewrite Hcount. by vm_compute.
    + destruct (Hin (py "ui/src/App.tsx")
                    (py "import { IconHome } from '@tabler/icons-react';"))
        as (new & changed & Hrw & _ & ->).
      * apply (bool_decide_unpack _). by vm_compute.
      * by vm_compute.
      * vm_compute in Hrw. by injection Hrw as <- _.
Defined.

(** ** The concrete scenario *)

(** C1: on the line of the scenario the rewrite does replace the
    statement by two lines in the order of the list, the second binding
    the alias and loading the file of the original name; but each path is
    the package name with the symbol name put directly behind it, with no
    slash between them, so the output is not the one the scenario
    requires. *)
Theorem scenario_output :
  rewrite_file scenario =
  Ok (py "import IconHome from '@tabler/icons-reactIconHome.mjs';" ++ LF ::
      py "import UserIcon from '@tabler/icons-reactIconUser.mjs';", true) ∧
  rewrite_file scenario ≠
  Ok (py "import IconHome from '@tabler/icons-react/IconHome.mjs';" ++ LF ::
      py "import UserIcon from '@tabler/icons-react/IconUser.mjs';", true).
Proof. split; [by vm_compute|]. vm_compute. congruence. Qed.

(** The path of every line the rewrite emits is the package name
    followed at once by the name of the symbol. *)
Lemma import_from_path (name orig : str) :
  import_from name orig =
  py "import " ++ name ++ py " from '" ++ PACKAGE ++ orig ++ py ".mjs';".
Proof.
  unfold import_from.
  change (py " from '@tabler/icons-react") with (py " from '" ++ PACKAGE).
  by rewrite <- !app_assoc.
Qed.

(** ** Symbols with an alias *)

(** The only exception the rewrite of a content raises. *)
Lemma import_line_Raise (icon : str) e : import_line icon = Raise e → e = ValueError.
Proof.
  unfold import_line. destruct (contains AS icon); [|done].
  destruct (split AS icon) as [|? [|? [|]]]; congruence.
Qed.

Lemma for_each_Raise {A B} (f : A → result B) (l : list A) e :
  for_each f l = Raise e → ∃ a, a ∈ l ∧ f a = Raise e.
Proof.
  induction l as [|a l IH]; simpl; [done|].
  destruct (f a) as [b|e'] eqn:Ha.
  - rewrite bind_Ok. destruct (for_each f l) as [bs|e'']; [done|].
    rewrite bind_Raise. intros [= ->]. destruct (IH eq_refl) as (a' & ? & ?).
    exists a'. split; [by right|done].
  - rewrite bind_Raise. intros [= ->]. exists a. split; [left|done].
Qed.

Lemma splice_all_Raise (ms : list Match) (x : str) e :
  splice_all ms x = Raise e →
  ∃ m, m ∈ ms ∧ replacement_of (m_group1 m) = Raise e.
Proof.
  revert x. induction ms as [|m ms IH]; intros x; simpl; [done|].
  unfold splice at 1. destruct (replacement_of (m_group1 m)) as [r|e'] eqn:Hr.
  - rewrite !bind_Ok. intros (m' & ? & ?)%IH. exists m'. split; [by right|done].
  - rewrite !bind_Raise. intros [= ->]. exists m. split; [left|done].
Qed.

(** The rewrite raises only [ValueError], and only for a symbol of a
    matched statement on which [import_line] raises. *)
Lemma rewrite_Raise (content : str) e :
  rewrite_file content = Raise e →
  e = ValueError ∧
  ∃ m icon, m ∈ finditer content ∧ icon ∈ icons_of (m_group1 m) ∧
            import_line icon = Raise ValueError.
Proof.
  unfold rewrite_file. destruct (finditer content) as [|m0 ms] eqn:E; [done|].
  rewrite <- E.
  destruct (splice_all (reverse (finditer content)) content) as [out|e'] eqn:Hs.
  - rewrite bind_Ok. by destruct (decide (out ≠ content)).
  - rewrite bind_Raise. intros [= ->].
    apply splice_all_Raise in Hs as (m & Hm & Hr).
    rewrite elem_of_reverse in Hm.
    apply for_each_Raise in Hr as (icon & Hi & Hl).
    pose proof (import_line_Raise _ _ Hl) as ->. split; [done|].
    by exists m, icon.
Qed.

(** A symbol with one alias clause: the line binds the alias and loads
    the file of the original name. *)
Lemma import_line_alias (icon orig alias : str) :
  contains AS icon = true → split AS icon = [orig; alias] →
  icon = orig ++ AS ++ alias ∧
  import_line icon = Ok (import_from (strip alias) (strip orig)).
Proof.
  intros Hc Hs. split.
  - by rewrite <- (join_split AS icon), Hs.
  - unfold import_line. by rewrite Hc, Hs.
Qed.

(** A symbol without alias clause is both the name bound and the name of
    the file. *)
Lemma import_line_plain (icon : str) :
  contains AS icon = false → import_line icon = Ok (import_from icon icon).
Proof. intros Hc. unfold import_line. by rewrite Hc. Qed.

(** ** The separator of the alias clause *)

Lemma split_aux_first (sep cur a b : str) :
  sep ≠ [] → first_at sep a b →
  split_aux sep 0 cur (a ++ sep ++ b) =
  (reverse cur ++ a) :: split_aux sep 0 [] b.
Proof.
  intros Hsep. revert cur. induction a as [|x a IH]; intros cur Ha.
  - destruct sep as [|c sep']; [done|].
    assert (Hst : startswith (c :: sep') (c :: sep' ++ b) = true)
      by apply (startswith_app (c :: sep') b).
    change ([] ++ (c :: sep') ++ b) with (c :: sep' ++ b).
    cbn [split_aux]. rewrite Hst.
    replace (length (c :: sep') - 1) with (length sep') by (simpl; lia).
    by rewrite split_aux_skip, app_nil_r.
  - pose proof (Ha [] (x :: a) eq_refl) as Hx.
    change ((x :: a) ++ sep ++ b) with (x :: a ++ sep ++ b) in Hx |- *.
    cbn [split_aux]. rewrite Hx by done.
    rewrite IH.
    + by rewrite reverse_cons, <- app_assoc.
    + intros a1 a2 -> Ha2. by apply (Ha (x :: a1) a2).
Qed.

Lemma split_aux_none (sep cur b : str) :
  contains sep b = false → split_aux sep 0 cur b = [reverse cur ++ b].
Proof.
  revert cur. induction b as [|x b IH]; intros cur; simpl.
  - by rewrite app_nil_r.
  - intros [-> Hb]%orb_false_elim. rewrite IH by done.
    by rewrite reverse_cons, <- app_assoc.
Qed.

Lemma contains_first (sep s : str) :
  contains sep s = true → ∃ a b, s = a ++ sep ++ b ∧ first_at sep a b.
Proof.
  induction s as [|x s IH]; simpl.
  - rewrite orb_false_r. intros [b E]%startswith_inv.
    exists [], b. split; [done|]. intros a1 a2 Ea. by destruct a1, a2.
  - destruct (startswith sep (x :: s)) eqn:Hst; simpl.
    + intros _. apply startswith_inv in Hst as [b E].
      exists [], b. split; [done|]. intros a1 a2 Ea. by destruct a1, a2.
    + intros (a & b & -> & Ha)%IH. exists (x :: a), b. split; [done|].
      intros a1 a2 Ea Ha2. destruct a1 as [|y a1]; simpl in Ea.
      * by subst a2.
      * injection Ea as -> ->. by apply (Ha a1 a2).
Qed.

Lemma contains_app (sep a b : str) : contains sep (a ++ sep ++ b) = true.
Proof.
  induction a as [|x a IH].
  - destruct (sep ++ b) eqn:E; simpl; rewrite <- E, startswith_app; done.
  - cbn [app contains]. rewrite IH. apply orb_true_r.
Qed.

(** A text that contains the separator splits into two parts at
    least. *)
Lemma split_contains (sep s : str) :
  sep ≠ [] → contains sep s = true → 2 ≤ length (split sep s).
Proof.
  intros Hsep (a & b & -> & Ha)%contains_first. unfold split.
  rewrite split_aux_first by done. cbn [length].
  pose proof (split_aux_not_nil sep 0 [] b).
  destruct (split_aux sep 0 [] b); [done|]. simpl. lia.
Qed.

(** A piece with exactly one separator: the parts are what stands
    before and after it, the line binds the stripped alias and loads the
    file of the stripped original name. *)
Lemma import_line_single (orig alias : str) :
  first_at AS orig alias → contains AS alias = false →
  split AS (orig ++ AS ++ alias) = [orig; alias] ∧
  import_line (orig ++ AS ++ alias) =
  Ok (import_from (strip alias) (strip orig)).
Proof.
  intros Hfirst Hnone.
  assert (Hs : split AS (orig ++ AS ++ alias) = [orig; alias]).
  { unfold split. rewrite split_aux_first by done.
    by rewrite split_aux_none. }
  split; [done|]. unfold import_line. by rewrite contains_app, Hs.
Qed.

(** [import_line] raises exactly on the pieces that split into more than
    two parts. *)
Lemma import_line_Ok (icon : str) :
  length (split AS icon) ≤ 2 ↔ ∃ line, import_line icon = Ok line.
Proof.
  unfold import_line. destruct (contains AS icon) eqn:Hc.
  - assert (Hlen : 2 ≤ length (split AS icon))
      by (by apply split_contains).
    destruct (split AS icon) as [|orig [|alias [|]]]; simpl in *.
    + lia.
    + lia.
    + split; [by eexists|lia].
    + split; [lia|by intros [? ?]].
  - split; [by eexists|intros _].
    unfold split. rewrite split_aux_none by done. simpl. lia.
Qed.

(** The rewrite of a content raises nothing when no symbol of its
    statements holds two separators. *)
Lemma rewrite_file_Ok (content : str) :
  (∀ m icon, m ∈ finditer content → icon ∈ icons_of (m_group1 m) →
             length (split AS icon) ≤ 2) →
  ∃ r, rewrite_file content = Ok r.
Proof.
  intros H. destruct (rewrite_file content) as [r|e] eqn:E; [by exists r|].
  apply rewrite_Raise in E as (_ & m & icon & Hm & Hi & Hl).
  apply (H m icon Hm) in Hi. apply import_line_Ok in Hi as [line Hline].
  congruence.
Qed.

(** ** A piece with two alias separators *)

(** C3: a piece with two alias separators in it contains the separator,
    and splitting it at the first one would give the original name [A]
    and the alias [B as C]; the code splits it at every separator, into
    three parts, and unpacking them into two names raises. *)
Theorem second_alias_raises :
  contains AS (py "A as B as C") = true ∧
  split AS (py "A as B as C") = [py "A"; py "B"; py "C"] ∧
  import_line (py "A as B as C") = Raise ValueError.
Proof. by vm_compute. Qed.

(** C2: the rewrite of a content with such a piece in a qualifying
    statement raises [ValueError], and [refactor_icons] with it. *)
Theorem rewrite_raises :
  let content := py "import { A as B as C } from '@tabler/icons-react';" in
  finditer content = [mkMatch 0 50 (py " A as B as C ")] ∧
  rewrite_file content = Raise ValueError ∧
  ∀ (fs : files) (file_path : str),
    fs !! file_path = Some content →
    refactor_icons fs file_path = Raise ValueError.
Proof.
  intros content.
  assert (Hr : rewrite_file content = Raise ValueError) by (by vm_compute).
  split; [by vm_compute|]. split; [done|].
  intros fs file_path Hfs. unfold refactor_icons. by rewrite Hfs, Hr.
Qed.

(** * Further properties of the code *)

(** ** What [finditer] returns *)



Lemma StronglySorted_shift (k : nat) (ms : list Match) :
  StronglySorted before ms → StronglySorted before (shift k <$> ms).
Proof.
  induction 1 as [|m ms Hs IH Hall]; [constructor|].
  rewrite fmap_cons. constructor; [done|].
  rewrite Forall_fmap. apply (Forall_impl _ _ _ Hall).
  intros m'. unfold before, shift. simpl. lia.
Qed.

(** X2: the matches come in the order of the text and do not overlap:
    each one ends before any later one starts. *)
Theorem finditer_ordered (content : str) :
  StronglySorted before (finditer content).
Proof.
  induction content as [s Hs|p m rest g Hp Hm IH] using content_ind.
  - rewrite finditer_none by done. constructor.
  - rewrite (finditer_first _ _ _ _ Hp Hm).
    constructor; [by apply StronglySorted_shift|].
    rewrite Forall_fmap. apply Forall_true.
    intros mr. unfold before, shift. simpl. rewrite length_app. lia.
Qed.

Lemma qualifying_match (b : str) : qualifying b → ∃ n g, match_here b = Some (n, g).
Proof.
  intros Hq%match_here_qualifying.
  destruct (match_here b) as [[n g]|]; [by exists n, g|done].
Qed.

(** X3: no statement is missed: wherever a qualifying statement stands
    in the content, a match starts at that offset or an earlier match
    reaches over it. *)
Theorem finditer_covers (content a b : str) :
  content = a ++ b → qualifying b →
  Exists (λ m, m_start m ≤ length a < m_end m) (finditer content).
Proof.
  revert a b.
  induction content as [s Hs|p m rest g Hp Hm IH] using content_ind;
    intros a b E Hq.
  - exfalso. destruct (qualifying_match b Hq) as (n & g & Hb).
    pose proof (match_here_length _ _ _ Hb) as [Hn Hlen].
    specialize (Hs a b E). rewrite app_nil_r in Hs.
    rewrite Hs in Hb; [done|]. intros ->. simpl in Hlen. lia.
  - pose proof (match_here_length _ _ _ Hm) as [Hpos _].
    rewrite (finditer_first _ _ _ _ Hp Hm).
    assert (Hcase : (∃ k, p = a ++ k ∧ k ≠ [] ∧ b = k ++ m ++ rest) ∨
                    (length p ≤ length a < length p + length m) ∨
                    ∃ k, a = (p ++ m) ++ k ∧ rest = k ++ b).
    { apply app_eq_inv in E as [(k & -> & ->)|(k & -> & E)].
      - destruct k as [|c k].
        + right. left. rewrite app_nil_r. lia.
        + left. by exists (c :: k).
      - right. apply app_eq_inv in E as [(k2 & -> & ->)|(k2 & -> & ->)].
        + destruct k2 as [|c k2].
          * right. exists []. by rewrite !app_nil_r.
          * left. rewrite !length_app. simpl. lia.
        + right. exists k2. by rewrite <- app_assoc. }
    destruct Hcase as [(k & -> & Hk & ->)|[Hin|(k & -> & ->)]].
    + exfalso. destruct (qualifying_match _ Hq) as (n & g' & Hb).
      by rewrite (Hp a k eq_refl Hk) in Hb.
    + apply Exists_cons_hd. cbn [m_start m_end]. lia.
    + apply Exists_cons_tl, Exists_fmap.
      apply (Exists_impl _ _ _ (IH k b eq_refl Hq)).
      intros mr. unfold shift. simpl. rewrite !length_app. lia.
Qed.

Lemma finditer_covers_witness :
  Exists (λ m, m_start m ≤ 3 < m_end m)
         (finditer (py "x; import { A } from '@tabler/icons-react'; y")).
Proof.
  apply (finditer_covers _ (py "x; ") (py "import { A } from '@tabler/icons-react'; y")).
  - done.
  - exists (py " "), (py " A "), (py " "), (py " "), SQUOTE, SQUOTE, (py "; y").
    assert (Hsp : spaces (py " "))
      by (by split; [|vm_compute; repeat constructor]).
    repeat split; try done; try apply Hsp.
    vm_compute. by repeat constructor.
Defined.

(** ** What [rewrite_file] returns *)

(** X4: the comparison of line 35 can only succeed: when the rewrite
    raises nothing it returns [changed = true] exactly when [finditer]
    found a match, and the text it returns then differs from the
    content; without a match the text is the content. *)
Theorem changed_iff_match (content out : str) (changed : bool) :
  rewrite_file content = Ok (out, changed) →
  (changed = true ↔ finditer content ≠ []) ∧
  (changed = true ↔ out ≠ content).
Proof.
  intros H. pose proof (rewrite_Ok _ _ _ H) as [Hout ->].
  pose proof (new_content_rbraces _ _ Hout) as Hle.
  destruct (decide (finditer content = [])) as [E|E].
  - rewrite bool_decide_eq_false_2 by auto.
    rewrite (rewrite_no_match _ E) in H. injection H as <-.
    by split; split.
  - rewrite bool_decide_eq_true_2 by done.
    split; [done|]. split; [intros _ ->|done].
    destruct (finditer content); [done|]. simpl in Hle. lia.
Qed.

Lemma changed_iff_match_witness :
  (true = true ↔
   finditer (py "import { A } from '@tabler/icons-react'") ≠ []) ∧
  (true = true ↔
   py "import A from '@tabler/icons-reactA.mjs';" ≠
   py "import { A } from '@tabler/icons-react'").
Proof. apply changed_iff_match. by vm_compute. Defined.

(** X5: the rewrite of a content with any number of statements goes
    statement by statement: with [m] the first match, after the text [p],
    the result is [p], then the lines that replace [m], then the rewrite
    of the rest of the content; nothing outside the matches changes. *)
Theorem rewrite_file_first (p m rest g o : str) (r : list (list N)) (changed : bool) :
  matchless p (m ++ rest) →
  match_here (m ++ rest) = Some (length m, g) →
  replacement_of g = Ok r →
  rewrite_file rest = Ok (o, changed) →
  rewrite_file (p ++ m ++ rest) = Ok (p ++ join [LF] r ++ o, true).
Proof.
  intros Hp Hm Hr [Ho _]%rewrite_Ok.
  rewrite rewrite_match by (by rewrite (finditer_first _ _ _ _ Hp Hm)).
  by rewrite (new_content_first _ _ _ _ Hp Hm), Ho, !bind_Ok, Hr, !bind_Ok.
Qed.

Lemma rewrite_file_first_witness :
  rewrite_file (py "a; import { A } from '@tabler/icons-react'; b; " ++
                py "import { B, C } from '@tabler/icons-react'; c") =
  Ok (py "a; import A from '@tabler/icons-reactA.mjs'; b; import B from " ++
      py "'@tabler/icons-reactB.mjs';" ++ LF ::
      py "import C from '@tabler/icons-reactC.mjs'; c", true).
Proof.
  apply (rewrite_file_first
           (py "a; ") (py "import { A } from '@tabler/icons-react';")
           (py " b; import { B, C } from '@tabler/icons-react'; c") (py " A ")
           (py " b; import B from '@tabler/icons-reactB.mjs';" ++ LF ::
            py "import C from '@tabler/icons-reactC.mjs'; c")
           [py "import A from '@tabler/icons-reactA.mjs';"] true).
  - apply matchlessb_sound. by vm_compute.
  - by vm_compute.
  - by vm_compute.
  - by vm_compute.
Defined.

Lemma new_content_elem (s out : str) (c : N) :
  new_content_of s = Ok out → c ∈ out → c ∈ s ∨ c ∈ template.
Proof.
  revert out. induction s as [s Hs|p m rest g Hp Hm IH] using content_ind;
    intros out.
  - rewrite new_content_none by done. intros [= <-]. auto.
  - rewrite (new_content_first _ _ _ _ Hp Hm).
    destruct (new_content_of rest) as [o|e]; [|done]. rewrite bind_Ok.
    destruct (replacement_of g) as [r|e] eqn:Hr; [|done]. rewrite bind_Ok.
    intros [= <-]. rewrite !elem_of_app.
    apply match_here_text in Hm
      as (ws1 & ws2 & ws3 & q1 & q2 & semi & -> & _).
    intros [?|[Hc|Hc]]; [auto| |].
    + apply (replacement_elem _ _ _ Hr) in Hc as [Hc|?]; [left|by right].
      right. left. rewrite statement_clause, !elem_of_app, !elem_of_cons,
        !elem_of_app. auto 10.
    + destruct (IH o eq_refl Hc); auto.
Qed.

(** X6: the rewrite invents nothing: every character of the text it
    returns occurs in the content or is one of the characters of the
    fixed import line and the newline that joins the lines. *)
Theorem rewrite_file_chars (content out : str) (changed : bool) (c : N) :
  rewrite_file content = Ok (out, changed) → c ∈ out →
  c ∈ content ∨ c ∈ LF :: py "import  from '@tabler/icons-react.mjs';".
Proof. intros [Hout _]%rewrite_Ok. by apply new_content_elem. Qed.

Lemma rewrite_file_chars_witness :
  46%N ∈ py "import { A } from '@tabler/icons-react'" ∨
  46%N ∈ LF :: py "import  from '@tabler/icons-react.mjs';".
Proof.
  apply (rewrite_file_chars (py "import { A } from '@tabler/icons-react'")
           (py "import A from '@tabler/icons-reactA.mjs';") true).
  - by vm_compute.
  - apply (bool_decide_unpack _). by vm_compute.
Defined.

(** ** When the rewrite raises *)




(** ** The symbols of a statement *)

Lemma split_comma_no_comma (cur s piece : str) :
  COMMA ∉ cur → piece ∈ split_aux [COMMA] 0 cur s → COMMA ∉ piece.
Proof.
  revert cur. induction s as [|c s IH]; intros cur Hcur.
  - intros ->%list_elem_of_singleton. by rewrite elem_of_reverse.
  - cbn [split_aux startswith length Nat.sub]. rewrite andb_true_r.
    destruct (N.eqb_spec COMMA c) as [<-|Hne].
    + intros [->|H]%elem_of_cons; [by rewrite elem_of_reverse|].
      apply (IH []); [|done]. by intros ?%elem_of_nil.
    + apply IH. by intros [?|?]%elem_of_cons.
Qed.

(** X8: the symbols taken from a brace content are never empty, hold no
    comma, start and end with a character that is no white space, and
    consist of characters of the brace content. *)
Theorem icons_of_wellformed (icons_block : str) :
  Forall (λ icon,
    icon ≠ [] ∧ (COMMA ∉ icon) ∧ (icon ⊆ icons_block) ∧
    (∃ c t, icon = c :: t ∧ isspace c = false) ∧
    (∃ t c, icon = t ++ [c] ∧ isspace c = false))
    (icons_of icons_block).
Proof.
  apply Forall_forall. intros icon Hin.
  destruct (icons_of_elem _ _ Hin) as [Hne Hsub].
  destruct (icons_of_ends _ _ Hin) as [Hhead Hlast].
  repeat split; try done.
  unfold icons_of in Hin.
  apply list_elem_of_filter in Hin as [_ Hin].
  apply list_elem_of_fmap in Hin as (piece & -> & Hp).
  intros Hc%strip_subseteq. revert Hc.
  apply (split_comma_no_comma [] icons_block); [|done].
  by intros ?%elem_of_nil.
Qed.

(** ** The files [refactor_icons] touches *)

Lemma refactor_icons_Ok (fs fs' : files) (file_path : str) (changed : bool) :
  refactor_icons fs file_path = Ok (fs', changed) →
  dom fs' = dom fs ∧
  (∀ p, p ≠ file_path → fs' !! p = fs !! p) ∧
  (changed = false → fs' = fs).
Proof.
  unfold refactor_icons. destruct (fs !! file_path) as [content|] eqn:Hfs;
    [|done].
  destruct (rewrite_file content) as [[new [|]]|e]; [| |done].
  - intros [= <- <-]. split; [|split; [|done]].
    + apply dom_insert_lookup_L. by exists content.
    + intros p Hp. by rewrite lookup_insert_ne.
  - by intros [= <- <-].
Qed.

(** X9: [refactor_icons] raises [FileNotFoundError] exactly when the
    path names no file; when it returns, no file has been created or
    removed, no file but the one at the path has changed, and nothing at
    all has changed when it returns [False]. *)
Theorem refactor_icons_frame (fs : files) (file_path : str) :
  (refactor_icons fs file_path = Raise FileNotFoundError ↔
   fs !! file_path = None) ∧
  ∀ fs' changed,
    refactor_icons fs file_path = Ok (fs', changed) →
    dom fs' = dom fs ∧
    (∀ p, p ≠ file_path → fs' !! p = fs !! p) ∧
    (changed = false → fs' = fs).
Proof.
  split; [|intros fs' changed; apply refactor_icons_Ok].
  unfold refactor_icons. destruct (fs !! file_path) as [content|]; [|done].
  destruct (rewrite_file content) as [[new [|]]|e] eqn:Hrw; [done|done|].
  by apply rewrite_Raise in Hrw as [-> _].
Qed.

(** ** The driver, whatever the walk *)

Lemma process_Ok (st st' : state) (path : str) :
  process st path = Ok st' →
  dom (st_files st') = dom (st_files st) ∧
  (∀ p, p ≠ path → st_files st' !! p = st_files st !! p) ∧
  ((st_stdout st' = st_stdout st ∧ st_count st' = st_count st) ∨
   (st_stdout st' = st_stdout st ++ [refactored path] ∧
    st_count st' = st_count st + 1)).
Proof.
  unfold process.
  destruct (refactor_icons (st_files st) path) as [[fs' changed]|e] eqn:E;
    [|done].
  apply refactor_icons_Ok in E as (Hdom & Hother & _).
  destruct changed; intros [= <-]; cbn [st_files st_stdout st_count]; auto.
Qed.

Lemma for_state_process_Ok (paths : list (list N)) (st st' : state) :
  for_state process paths st = Ok st' →
  ∃ modified,
    modified `sublist_of` paths ∧
    st_stdout st' = st_stdout st ++ (refactored <$> modified) ∧
    st_count st' = st_count st + length modified ∧
    dom (st_files st') = dom (st_files st) ∧
    (∀ p, p ∉ paths → st_files st' !! p = st_files st !! p).
Proof.
  revert st. induction paths as [|path paths IH]; intros st.
  - intros [= <-]. exists []. simpl. rewrite app_nil_r, Nat.add_0_r. done.
  - cbn [for_state]. destruct (process st path) as [st1|e] eqn:Hp; [|done].
    rewrite bind_Ok. intros (modified & Hsub & Hout & Hcount & Hdom & Hfiles)%IH.
    apply process_Ok in Hp as (Hdom1 & Hother & Hcase).
    assert (Hfiles' : ∀ p, p ∉ path :: paths →
                      st_files st' !! p = st_files st !! p).
    { intros p [Hne Hnin]%not_elem_of_cons.
      by rewrite (Hfiles p Hnin), (Hother p Hne). }
    destruct Hcase as [[Eo Ec]|[Eo Ec]].
    + exists modified. rewrite Hout, Hcount, Hdom, Eo, Ec.
      split; [by apply sublist_cons|]. done.
    + exists (path :: modified). rewrite Hout, Hcount, Hdom, Eo, Ec.
      split; [by apply sublist_skip|].
      rewrite fmap_cons, <- app_assoc. cbn [length].
      split; [reflexivity|]. split; [lia|]. split; assumption.
Qed.

(** X10: whenever the driver ends without an exception, whatever the
    walk and the files are, its output is a line [Refactored <path>] for
    some of the candidate paths, in the order of the walk, and then the
    line [Total refactored: <count>] with the number of these lines; no
    file has been created or removed, and a file that is no candidate is
    as it was. *)
Theorem driver_invariant (walk : list (list N * list (list N) * list (list N)))
        (fs : files) (st : state) :
  main walk fs = Ok st →
  ∃ modified,
    modified `sublist_of` candidates walk ∧
    st_stdout st =
      (refactored <$> modified) ++
      [py "Total refactored: " ++ str_of_nat (length modified)] ∧
    st_count st = length modified ∧
    dom (st_files st) = dom fs ∧
    (∀ p, p ∉ candidates walk → st_files st !! p = fs !! p).
Proof.
  unfold main. rewrite for_state_walk.
  destruct (for_state process (candidates walk) (mkState fs [] 0))
    as [st1|e] eqn:E; [|done].
  rewrite bind_Ok. intros [= <-].
  apply for_state_process_Ok in E
    as (modified & Hsub & Hout & Hcount & Hdom & Hfiles).
  cbn [st_files st_stdout st_count] in *.
  exists modified. by rewrite Hout, Hcount.
Qed.

Lemma driver_invariant_witness :
  ∃ modified,
    modified `sublist_of` [py "ui/src/a.ts"; py "ui/src/a.ts"] ∧
    [py "Refactored ui/src/a.ts"; py "Total refactored: 1"] =
      (refactored <$> modified) ++
      [py "Total refactored: " ++ str_of_nat (length modified)].
Proof.
  destruct (driver_invariant
              [(py "ui/src", [], [py "a.ts"; py "a.ts"; py "b.md"])]
              {[py "ui/src/a.ts" := py "import { A } from '@tabler/icons-react'"]}
              (mkState
                 {[py "ui/src/a.ts" := py "import A from '@tabler/icons-reactA.mjs';"]}
                 [py "Refactored ui/src/a.ts"; py "Total refactored: 1"] 1))
    as (modified & Hsub & Hout & _).
  - by vm_compute.
  - exists modified. split; [exact Hsub|exact Hout].
Defined.

(** ** The paths of a walk *)

(** Where [c] last occurs in a list is determined by the list. *)
Lemma last_occurrence (c : N) (a b a' b' : str) :
  c ∉ b → c ∉ b' → a ++ c :: b = a' ++ c :: b' → a = a' ∧ b = b'.
Proof.
  intros Hb Hb' E. apply (f_equal reverse) in E.
  rewrite !reverse_app, !reverse_cons, <- !app_assoc in E. simpl in E.
  apply first_occurrence in E as [E1 E2]; [|by rewrite elem_of_reverse..].
  apply (f_equal reverse) in E1, E2. by rewrite !reverse_involutive in E1, E2.
Qed.

(** Under a directory that is named and does not end with the separator,
    a file name without separator is joined behind a separator. *)
Lemma os_path_join_plain (root file : str) :
  root ≠ [] → endswith (py "/") root = false → SLASH ∉ file →
  os_path_join root file = root ++ SLASH :: file.
Proof.
  intros Hroot Hend Hfile. unfold os_path_join.
  assert (startswith (py "/") file = false) as ->.
  { destruct file as [|c file]; [done|].
    change (py "/") with [SLASH]. cbn [startswith]. rewrite andb_true_r.
    destruct (N.eqb_spec SLASH c) as [<-|]; [|done].
    exfalso. apply Hfile. left. }
  rewrite Hend, bool_decide_eq_false_2 by done. done.
Qed.

Lemma elem_of_candidates walk (path : str) :
  path ∈ candidates walk ↔
  ∃ entry file, entry ∈ walk ∧ file ∈ entry.2 ∧ has_extension file = true ∧
                path = os_path_join entry.1.1 file.
Proof.
  induction walk as [|entry walk IH]; cbn [candidates].
  - split; [by intros ?%elem_of_nil|]. by intros (? & ? & ?%elem_of_nil & _).
  - rewrite elem_of_app, list_elem_of_fmap, IH. split.
    + intros [(file & -> & [Hext Hin]%list_elem_of_filter)|
              (entry' & file & Hin & Hrest)].
      * exists entry, file. split; [left|done].
      * exists entry', file. split; [by right|done].
    + intros (entry' & file & [->|Hin]%elem_of_cons & Hf & Hext & ->).
      * left. exists file. split; [done|]. by apply list_elem_of_filter.
      * right. by exists entry', file.
Qed.

(** X11: the paths the driver hands to [refactor_icons] are all
    different when the walk lists every directory once, under a name
    that is not empty and does not end with the separator, and the file
    names of a directory are distinct and hold no separator; each path is
    then the directory, the separator and the file name. *)
Theorem candidates_NoDup (walk : list (list N * list (list N) * list (list N))) :
  tree_walk walk →
  NoDup (candidates walk) ∧
  ∀ path, path ∈ candidates walk →
    ∃ entry file, entry ∈ walk ∧ file ∈ entry.2 ∧ has_extension file = true ∧
                  path = entry.1.1 ++ SLASH :: file.
Proof.
  intros [Hroots Hall].
  assert (Hshape : ∀ path, path ∈ candidates walk →
            ∃ entry file, entry ∈ walk ∧ file ∈ entry.2 ∧
                          has_extension file = true ∧ (SLASH ∉ file) ∧
                          path = entry.1.1 ++ SLASH :: file).
  { intros path (entry & file & Hin & Hf & Hext & ->)%elem_of_candidates.
    rewrite Forall_forall in Hall.
    destruct (Hall entry Hin) as (Hne & Hend & _ & Hfiles).
    rewrite Forall_forall in Hfiles.
    exists entry, file. rewrite os_path_join_plain by auto. auto 10. }
  split.
  - clear Hshape. induction walk as [|entry walk IH]; [constructor|].
    rewrite fmap_cons in Hroots. apply NoDup_cons in Hroots as [Hroot Hroots].
    apply Forall_cons in Hall as [(Hne & Hend & Hnd & Hfiles) Hall].
    rewrite Forall_forall in Hfiles.
    cbn [candidates]. apply NoDup_app. split; [|split; [|by apply IH]].
    + apply NoDup_fmap_2_strong; [|by apply NoDup_filter].
      intros f1 f2 [_ H1]%list_elem_of_filter [_ H2]%list_elem_of_filter.
      rewrite !os_path_join_plain by auto.
      intros E. apply last_occurrence in E as [_ E]; auto.
    + intros path (file & -> & [_ Hf]%list_elem_of_filter)%list_elem_of_fmap.
      intros (entry' & file' & Hin' & Hf' & _ & E)%elem_of_candidates.
      rewrite Forall_forall in Hall.
      destruct (Hall entry' Hin') as (Hne' & Hend' & _ & Hfiles').
      rewrite Forall_forall in Hfiles'.
      rewrite !os_path_join_plain in E by auto.
      apply last_occurrence in E as [E _]; auto.
      apply Hroot. rewrite E. apply list_elem_of_fmap. by exists entry'.
  - intros path (entry & file & ? & ? & ? & ? & ?)%Hshape.
    by exists entry, file.
Qed.

Lemma candidates_NoDup_witness :
  NoDup (candidates
           [(py "ui/src", [py "components"], [py "App.tsx"; py "util.ts"]);
            (py "ui/src/components", [], [py "App.tsx"])]).
Proof.
  apply candidates_NoDup. split.
  - apply (bool_decide_unpack _). by vm_compute.
  - repeat constructor; try done;
      try (apply (bool_decide_unpack _); by vm_compute).
Defined.

(** ** What an exception leaves behind *)

Lemma for_keep_app {A} (body : state → A → state * option exn)
      (l1 l2 : list A) (st : state) :
  for_keep body (l1 ++ l2) st =
  match for_keep body l1 st with
  | (st', None) => for_keep body l2 st'
  | (st', Some e) => (st', Some e)
  end.
Proof.
  revert st. induction l1 as [|a l1 IH]; intros st; [done|].
  cbn [app for_keep]. destruct (body st a) as [st' [e|]]; [done|apply IH].
Qed.

Lemma visit_file_keep_unfold (root : str) (st : state) (file : str) :
  visit_file_keep root st file =
  if has_extension file then process_keep st (os_path_join root file)
  else (st, None).
Proof.
  unfold visit_file_keep, process_keep. rewrite visit_file_unfold.
  by destruct (has_extension file).
Qed.

Lemma for_keep_visit (root : str) (fs : list (list N)) (st : state) :
  for_keep (visit_file_keep root) fs st =
  for_keep process_keep
    (os_path_join root <$> filter (λ f, has_extension f = true) fs) st.
Proof.
  revert st. induction fs as [|file fs IH]; intros st; [done|].
  cbn [for_keep]. rewrite visit_file_keep_unfold.
  destruct (has_extension file) eqn:Hext.
  - rewrite filter_cons_True by done. rewrite fmap_cons. cbn [for_keep].
    destruct (process_keep st (os_path_join root file)) as [st' [e|]];
      [done|apply IH].
  - rewrite filter_cons_False by (by rewrite Hext). apply IH.
Qed.

Lemma for_keep_walk walk (st : state) :
  for_keep (λ st entry, for_keep (visit_file_keep entry.1.1) entry.2 st) walk st =
  for_keep process_keep (candidates walk) st.
Proof.
  revert st. induction walk as [|entry walk IH]; intros st; [done|].
  cbn [for_keep candidates]. rewrite for_keep_app, for_keep_visit.
  destruct (for_keep process_keep _ st) as [st' [e|]]; [done|apply IH].
Qed.

(** The loop that keeps the state agrees with the loop that does not. *)
Lemma for_keep_process (paths : list (list N)) (st : state) :
  for_state process paths st =
  match for_keep process_keep paths st with
  | (st', None) => Ok st'
  | (_, Some e) => Raise e
  end.
Proof.
  revert st. induction paths as [|path paths IH]; intros st; [done|].
  cbn [for_state for_keep]. unfold process_keep.
  destruct (process st path) as [st'|e]; [|done]. rewrite bind_Ok. apply IH.
Qed.

(** The driver with its effects kept agrees with the driver: it ends
    without exception exactly when [main] returns, in the same state, and
    with an exception exactly when [main] raises it. *)
Lemma run_main (walk : list (list N * list (list N) * list (list N)))
        (fs : files) :
  main walk fs =
  match run walk fs with
  | (st, None) => Ok st
  | (_, Some e) => Raise e
  end.
Proof.
  unfold main, run. rewrite for_state_walk, for_keep_walk, for_keep_process.
  by destruct (for_keep process_keep (candidates walk) (mkState fs [] 0))
    as [st [e|]].
Qed.

(** X12: the driver stops at the first file on which [refactor_icons]
    raises, because the path names no file or because the rewrite of its
    text raises: the exception ends the run, the summary line is not
    printed, the files before that one stay rewritten and reported, and
    that file and every file after it are as they were. *)
Theorem run_abort (walk : list (list N * list (list N) * list (list N)))
        (fs : files) (done_ rest : list (list N)) (bad : str) (e : exn) :
  candidates walk = done_ ++ bad :: rest →
  NoDup (done_ ++ [bad]) →
  (∀ path, path ∈ done_ →
     ∃ content r, fs !! path = Some content ∧ rewrite_file content = Ok r) →
  (fs !! bad = None ∧ e = FileNotFoundError) ∨
  (∃ content, fs !! bad = Some content ∧ rewrite_file content = Raise e) →
  ∃ st,
    run walk fs = (st, Some e) ∧
    main walk fs = Raise e ∧
    st_stdout st = refactored <$> filter (λ p, modifies fs p = true) done_ ∧
    st_count st = length (filter (λ p, modifies fs p = true) done_) ∧
    (∀ path, path ∉ done_ → st_files st !! path = fs !! path) ∧
    (∀ path content, path ∈ done_ → fs !! path = Some content →
       ∃ new changed, rewrite_file content = Ok (new, changed) ∧
                      st_files st !! path = Some new).
Proof.
  intros Hcand [Hnd [Hbad _]]%NoDup_app Hok Hfail.
  destruct (for_state_process done_ (mkState fs [] 0) Hnd Hok)
    as (st & Hrun & Hout & Hcount & Hout_files & Hin_files).
  cbn [st_files st_stdout st_count] in *.
  assert (Hnin : bad ∉ done_).
  { intros Hin. apply (Hbad bad Hin). left. }
  assert (Hp : process st bad = Raise e).
  { unfold process, refactor_icons. rewrite (Hout_files bad Hnin).
    destruct Hfail as [[-> ->]|(content & -> & ->)]; done. }
  assert (Hkeep : for_keep process_keep (candidates walk) (mkState fs [] 0) =
                  (st, Some e)).
  { rewrite Hcand, for_keep_app.
    rewrite for_keep_process in Hrun.
    destruct (for_keep process_keep done_ (mkState fs [] 0)) as [st' [e'|]];
      [done|]. injection Hrun as ->.
    cbn [for_keep]. unfold process_keep. by rewrite Hp. }
  assert (Hr : run walk fs = (st, Some e))
    by (unfold run; by rewrite for_keep_walk, Hkeep).
  assert (Hm : main walk fs = Raise e).
  { unfold main. by rewrite for_state_walk, for_keep_process, Hkeep. }
  by exists st.
Qed.

Lemma run_abort_witness :
  let walk := [(py "ui/src", [], [py "a.ts"; py "b.ts"; py "c.ts"])] in
  let fs : files :=
    <[py "ui/src/a.ts" := py "import { A } from '@tabler/icons-react'"]>
    (<[py "ui/src/b.ts" := py "import { A as B as C } from '@tabler/icons-react'"]>
    (<[py "ui/src/c.ts" := py "import { C } from '@tabler/icons-react'"]> ∅)) in
  ∃ st,
    run walk fs = (st, Some ValueError) ∧
    main walk fs = Raise ValueError ∧
    st_stdout st = [py "Refactored ui/src/a.ts"] ∧
    st_files st !! py "ui/src/c.ts" =
      Some (py "import { C } from '@tabler/icons-react'").
Proof.
  intros walk fs.
  destruct (run_abort walk fs [py "ui/src/a.ts"] [py "ui/src/c.ts"]
              (py "ui/src/b.ts") ValueError)
    as (st & Hrun & Hmain & Hout & _ & Hfiles & _).
  - by vm_compute.
  - apply (bool_decide_unpack _). by vm_compute.
  - intros path ->%list_elem_of_singleton.
    eexists _, _. split; vm_compute; reflexivity.
  - right. eexists. split; vm_compute; reflexivity.
  - exists st. split; [done|]. split; [done|]. split.
    + rewrite Hout. by vm_compute.
    + rewrite Hfiles; [by vm_compute|].
      apply (bool_decide_unpack _). by vm_compute.
Defined.

(** ** Running the driver again *)

Lemma filter_modifies_none (fs : files) (paths : list (list N)) :
  (∀ p, p ∈ paths → modifies fs p = false) →
  filter (λ p, modifies fs p = true) paths = [].
Proof.
  induction paths as [|path paths IH]; intros H; [done|].
  rewrite filter_cons_False.
  - apply IH. intros p Hp. apply H. by right.
  - rewrite (H path) by left. done.
Qed.

(** X13: a second run of the driver finds nothing to do: when the first
    run meets no exception, visits no path twice, and the symbol lists of
    every candidate file name a symbol each and hold no opening brace,
    the run over the files it leaves prints only
    [Total refactored: 0] and changes no file. *)
Theorem driver_twice (walk : list (list N * list (list N) * list (list N)))
        (fs : files) :
  NoDup (candidates walk) →
  (∀ path, path ∈ candidates walk →
     ∃ content r, fs !! path = Some content ∧ rewrite_file content = Ok r ∧
                  plain_lists content) →
  ∃ st st2,
    main walk fs = Ok st ∧
    main walk (st_files st) = Ok st2 ∧
    st_stdout st2 = [py "Total refactored: 0"] ∧
    st_count st2 = 0 ∧
    st_files st2 = st_files st.
Proof.
  intros Hnd Hok.
  destruct (for_state_process (candidates walk) (mkState fs [] 0) Hnd)
    as (st & Hrun & _ & _ & _ & Hin).
  { intros path (content & r & ? & ? & _)%Hok. by exists content, r. }
  cbn [st_files] in Hin.
  (* what the first run leaves in the candidate files holds no match *)
  assert (Hleft : ∀ path, path ∈ candidates walk →
            ∃ new, st_files st !! path = Some new ∧ finditer new = []).
  { intros path Hp. destruct (Hok path Hp) as (content & r & Hfs & _ & Hplain).
    destruct (Hin path content Hp Hfs) as (new & changed & Hrw & Hnew).
    exists new. split; [done|].
    apply rewrite_Ok in Hrw as [Hrw _].
    by apply finditer_none, (new_content_matchless content). }
  destruct (for_state_process (candidates walk) (mkState (st_files st) [] 0) Hnd)
    as (st2 & Hrun2 & Hout2 & Hcount2 & Hout_files2 & Hin2).
  { intros path (new & Hnew & Hnil)%Hleft. exists new, (new, false).
    split; [done|]. by apply rewrite_no_match. }
  cbn [st_files st_stdout st_count] in *.
  assert (Hnone : filter (λ p, modifies (st_files st) p = true) (candidates walk)
                  = []).
  { apply filter_modifies_none. intros path (new & Hnew & Hnil)%Hleft.
    unfold modifies. rewrite Hnew, Hnil. by rewrite bool_decide_eq_false_2 by auto. }
  rewrite Hnone in Hout2, Hcount2. simpl in Hout2, Hcount2.
  eexists _, _. split; [|split; [|split; [|split]]].
  - unfold main. by rewrite for_state_walk, Hrun, bind_Ok.
  - unfold main. cbn [st_files]. by rewrite for_state_walk, Hrun2, bind_Ok.
  - cbn [st_stdout]. by rewrite Hout2, Hcount2.
  - done.
  - cbn [st_files]. apply map_eq. intros p.
    destruct (decide (p ∈ candidates walk)) as [Hp|Hp]; [|by apply Hout_files2].
    destruct (Hleft p Hp) as (new & Hnew & Hnil).
    destruct (Hin2 p new Hp Hnew) as (new' & changed & Hrw & ->).
    rewrite (rewrite_no_match _ Hnil) in Hrw. injection Hrw as <- _. done.
Qed.

Lemma driver_twice_witness :
  let walk := [(py "ui/src", [], [py "a.tsx"; py "b.ts"])] in
  let fs : files :=
    <[py "ui/src/a.tsx" := py "import { A, B as C } from '@tabler/icons-react';"]>
    (<[py "ui/src/b.ts" := py "export {}"]> ∅) in
  ∃ st st2,
    main walk fs = Ok st ∧
    main walk (st_files st) = Ok st2 ∧
    st_stdout st2 = [py "Total refactored: 0"] ∧
    st_count st2 = 0 ∧
    st_files st2 = st_files st.
Proof.
  intros walk fs. apply driver_twice.
  - apply (bool_decide_unpack _). by vm_compute.
  - intros path Hp. vm_compute candidates in Hp.
    rewrite !elem_of_cons in Hp.
    destruct Hp as [->|[->|[]%elem_of_nil]].
    + eexists _, _. split; [vm_compute; reflexivity|].
      split; [vm_compute; reflexivity|].
      unfold plain_lists. vm_compute finditer. repeat constructor.
      * not_in_literal.
      * by vm_compute.
    + eexists _, _. split; [vm_compute; reflexivity|].
      split; [vm_compute; reflexivity|].
      unfold plain_lists. vm_compute finditer. constructor.
Defined.

(** ** Candidate files *)



(** ** A symbol with one alias clause *)

Lemma first_atb_sound (sep a b : str) : first_atb sep a b = true → first_at sep a b.
Proof.
  induction a as [|x a IH]; simpl.
  - intros _ a1 a2 E Ha2. by destruct a1, a2.
  - intros [Hx Ha]%andb_true_iff a1 a2 E Ha2.
    destruct a1 as [|y a1]; simpl in E.
    + subst a2. by apply negb_true_iff in Hx.
    + injection E as -> ->. by apply (IH Ha a1 a2).
Qed.

(** X15: a symbol [orig as alias] in which the separator occurs once,
    at the end of [orig], gives the line that binds the stripped alias
    and loads the file of the stripped original name. *)
Theorem import_line_one_alias (orig alias : str) :
  first_at AS orig alias → contains AS alias = false →
  import_line (orig ++ AS ++ alias) =
  Ok (py "import " ++ strip alias ++ py " from '@tabler/icons-react" ++
      strip orig ++ py ".mjs';").
Proof. intros Hfirst Hnone. by apply import_line_single. Qed.

Lemma import_line_one_alias_witness :
  import_line (py "IconUser  as UserIcon") =
  Ok (py "import UserIcon from '@tabler/icons-reactIconUser.mjs';").
Proof.
  apply (import_line_one_alias (py "IconUser ") (py "UserIcon")).
  - apply first_atb_sound. by vm_compute.
  - by vm_compute.
Defined.
